(** * TopProvers: the snapshot scheduler and the two prover tables

    A shallow embedding of [src/TopProvers.jsx] (the three-prover table with
    its two-hourly snapshot job) and of the second component of the
    repository (the five-prover leaderboard), followed by the properties of
    the design document that the code is checked against.

    Layout: [Js] holds the part of the JavaScript engine the components rely
    on (binary64 numbers, string conversions, coercions); [TopProvers] and
    [Leaderboard] embed the two source files and end with the vocabulary
    and the sample data the properties are stated with; the lemmas and
    theorems come last. *)

From Stdlib Require Import ZArith Lia Ascii String.
From stdpp Require Import base tactics option list gmap strings pretty sorting.

Local Open Scope string_scope.
Local Open Scope list_scope.
Local Open Scope Z_scope.

(* ===================================================================== *)
(** * The engine: numbers, strings and coercions                          *)
(* ===================================================================== *)

Module Js.

(** ** Numbers

    A finite binary64 value is an integer multiple of [2^-1074] (the
    smallest subnormal); [Fin k] stands for [k * 2^-1074]. The
    representation is canonical, so Leibniz equality is numeric equality.
    The sign of zero is not tracked: no code modelled here can observe it. *)

Inductive number : Type :=
  | NaN
  | PosInf
  | NegInf
  | Fin (k : Z).

Global Instance number_eq_dec : EqDecision number.
Proof. solve_decision. Defined.

Definition grid : Z := 1074.

(** [dyadic m e] is the number [m * 2^e], for [e >= -1074]. *)
Definition dyadic (m e : Z) : number := Fin (m * 2 ^ (e + grid)).

Definition zero : number := Fin 0.

(** Nearest integer to [n / d] for [d > 0], ties to even. *)
Definition rne (n d : Z) : Z :=
  let q := n / d in
  match 2 * (n mod d) ?= d with
  | Lt => q
  | Gt => q + 1
  | Eq => if Z.even q then q else q + 1
  end.

(** Round the non-negative rational [n / d], counted in grid units, to 53
    significant bits; values that round to [2^1024] or more overflow. *)
Definition round_pos (n d : Z) : number :=
  let s := Z.max 0 (Z.log2 (n / d) - 52) in
  let k := rne n (d * 2 ^ s) * 2 ^ s in
  if 2 ^ 2098 <=? k then PosInf else Fin k.

Definition neg (x : number) : number :=
  match x with
  | NaN => NaN
  | PosInf => NegInf
  | NegInf => PosInf
  | Fin k => Fin (- k)
  end.

Definition round (n d : Z) : number :=
  if n <? 0 then neg (round_pos (- n) d) else round_pos n d.

(** The number denoted by the exact rational [n / d]. *)
Definition of_ratio (n d : Z) : number := round (n * 2 ^ grid) d.

Definition of_Z (z : Z) : number := of_ratio z 1.

(** [x + y] *)
Definition add (x y : number) : number :=
  match x, y with
  | NaN, _ | _, NaN => NaN
  | PosInf, NegInf | NegInf, PosInf => NaN
  | PosInf, _ | _, PosInf => PosInf
  | NegInf, _ | _, NegInf => NegInf
  | Fin a, Fin b => round (a + b) 1
  end.

(** [x - y] *)
Definition sub (x y : number) : number := add x (neg y).

(** [x < y]; false as soon as one side is NaN. *)
Definition ltb (x y : number) : bool :=
  match x, y with
  | NaN, _ | _, NaN => false
  | _, NegInf | PosInf, _ => false
  | NegInf, _ | _, PosInf => true
  | Fin a, Fin b => a <? b
  end.

(** [x >= y]; false as soon as one side is NaN. *)
Definition geb (x y : number) : bool :=
  match x, y with
  | NaN, _ | _, NaN => false
  | PosInf, _ | _, NegInf => true
  | NegInf, _ | _, PosInf => false
  | Fin a, Fin b => b <=? a
  end.

(** [Number.isFinite] *)
Definition isFinite (x : number) : bool :=
  match x with Fin _ => true | _ => false end.

(** Truthiness of a number: everything but [0] and [NaN]. *)
Definition truthy_number (x : number) : bool :=
  match x with
  | NaN => false
  | Fin k => negb (k =? 0)
  | _ => true
  end.

(** ** Strings

    Strings are sequences of 8-bit characters; case mapping and white space
    are the ASCII ones. *)

Definition code (c : ascii) : Z := Z.of_nat (nat_of_ascii c).

Definition isDigit (c : ascii) : bool := (48 <=? code c) && (code c <=? 57).

Definition digitVal (c : ascii) : Z := code c - 48.

Definition isHexDigit (c : ascii) : bool :=
  isDigit c || ((97 <=? code c) && (code c <=? 102))
            || ((65 <=? code c) && (code c <=? 70)).

Definition hexVal (c : ascii) : Z :=
  if isDigit c then digitVal c
  else if 97 <=? code c then code c - 87 else code c - 55.

(** Tab, line feed, vertical tab, form feed, carriage return, space. *)
Definition isWhite (c : ascii) : bool :=
  ((9 <=? code c) && (code c <=? 13)) || (code c =? 32).

Definition lowerChar (c : ascii) : ascii :=
  if (65 <=? code c) && (code c <=? 90)
  then ascii_of_nat (nat_of_ascii c + 32) else c.

(** [String.prototype.toLowerCase] *)
Fixpoint toLowerCase (s : string) : string :=
  match s with
  | EmptyString => EmptyString
  | String c r => String (lowerChar c) (toLowerCase r)
  end.

(** Longest prefix whose characters satisfy [p], and the rest. *)
Fixpoint span (p : ascii -> bool) (s : string) : string * string :=
  match s with
  | EmptyString => (EmptyString, EmptyString)
  | String c r =>
      if p c then let '(a, b) := span p r in (String c a, b)
      else (EmptyString, s)
  end.

Definition trimStart (s : string) : string := snd (span isWhite s).

(** [String.prototype.trim] *)
Definition trim (s : string) : string :=
  String.rev (trimStart (String.rev (trimStart s))).

Fixpoint replicate_char (n : nat) (c : ascii) : string :=
  match n with
  | O => EmptyString
  | S m => String c (replicate_char m c)
  end.

(** [s.padStart(n, c)] for a one-character filler [c]. *)
Definition padStart (n : nat) (c : ascii) (s : string) : string :=
  replicate_char (n - String.length s) c +:+ s.

(** Value of a digit string in base [b], most significant digit first. *)
Fixpoint digitsVal (b : Z) (val : ascii -> Z) (acc : Z) (s : string) : Z :=
  match s with
  | EmptyString => acc
  | String c r => digitsVal b val (acc * b + val c) r
  end.

Definition all_chars (p : ascii -> bool) (s : string) : bool :=
  match snd (span p s) with EmptyString => true | _ => false end.

(** ** Numeric literals *)

(** The number [m * 10^e]. *)
Definition of_decimal (m e : Z) : number :=
  if 0 <=? e then of_ratio (m * 10 ^ e) 1 else of_ratio m (10 ^ (- e)).

(** An optional exponent part [e[+-]digits]; the exponent and the rest. *)
Definition scanExponent (s : string) : Z * string :=
  match s with
  | String c r =>
      if (code c =? 101) || (code c =? 69) then
        let '(sg, r') :=
          match r with
          | String "-" t => (-1, t)
          | String "+" t => (1, t)
          | _ => (1, r)
          end in
        let '(ds, rest) := span isDigit r' in
        match ds with
        | EmptyString => (0, s)
        | _ => (sg * digitsVal 10 digitVal 0 ds, rest)
        end
      else (0, s)
  | EmptyString => (0, s)
  end.

(** An unsigned decimal literal at the start of [s]: digits, an optional
    fraction, an optional exponent. [None] when no digit is found. *)
Definition scanUnsigned (s : string) : option (number * string) :=
  let '(ip, r1) := span isDigit s in
  let '(fp, r2) :=
    match r1 with
    | String "." r => span isDigit r
    | _ => (EmptyString, r1)
    end in
  match ip +:+ fp with
  | EmptyString => None
  | ds =>
      let '(ex, rest) := scanExponent r2 in
      Some (of_decimal (digitsVal 10 digitVal 0 ds)
                       (ex - Z.of_nat (String.length fp)), rest)
  end.

(** A signed decimal literal or [Infinity] at the start of [s]. *)
Definition scanDecimal (s : string) : option (number * string) :=
  let '(sg, r) :=
    match s with
    | String "-" t => (true, t)
    | String "+" t => (false, t)
    | _ => (false, s)
    end in
  let signed (x : number) := if sg then neg x else x in
  if String.prefix "Infinity" r
  then Some (signed PosInf, String.substring 8 (String.length r - 8) r)
  else match scanUnsigned r with
       | Some (x, rest) => Some (signed x, rest)
       | None => None
       end.

(** [parseFloat]: the longest numeric prefix after leading white space. *)
Definition parseFloat (s : string) : number :=
  match scanDecimal (trimStart s) with
  | Some (x, _) => x
  | None => NaN
  end.

(** A literal [0x..], [0o..] or [0b..] taking the whole string. *)
Definition scanRadix (s : string) : option number :=
  match s with
  | String "0" (String c ds) =>
      let lit (b : Z) (ok : ascii -> bool) (val : ascii -> Z) :=
        match ds with
        | EmptyString => Some NaN
        | _ => Some (if all_chars ok ds then of_Z (digitsVal b val 0 ds) else NaN)
        end in
      if (code c =? 120) || (code c =? 88) then lit 16 isHexDigit hexVal
      else if (code c =? 111) || (code c =? 79)
      then lit 8 (fun c => isDigit c && (code c <=? 55)) digitVal
      else if (code c =? 98) || (code c =? 66)
      then lit 2 (fun c => isDigit c && (code c <=? 49)) digitVal
      else None
  | _ => None
  end.

(** The conversion of a string to a number: the whole trimmed string has to
    be one literal; the empty string is [0]. *)
Definition StringToNumber (s : string) : number :=
  match trim s with
  | EmptyString => zero
  | t =>
      match scanRadix t with
      | Some x => x
      | None =>
          match scanDecimal t with
          | Some (x, EmptyString) => x
          | _ => NaN
          end
      end
  end.

(** ** Printing numbers

    [Number::toString]: the shortest decimal digit string [ds] (at most 17
    digits, no trailing zero) and the decimal point position [n] such that
    [0.ds * 10^n] reads back as the same number; among several digit
    strings of that length the one closest to the number. *)

(** Number of decimal digits of the integer part of [k / 2^1074 >= 1], or
    minus the number of zeros after the point when [k / 2^1074 < 1]. *)
Fixpoint scale_below (fuel : nat) (k : Z) (j : Z) : Z :=
  match fuel with
  | O => j
  | S f => if 2 ^ grid <=? k * 10 then j else scale_below f (k * 10) (j - 1)
  end.

Definition point_position (k : Z) : Z :=
  if 2 ^ grid <=? k
  then Z.of_nat (String.length (pretty (k / 2 ^ grid)))
  else scale_below 400 k 0.

(** The candidates with [kd] digits and point position [n] for [Fin k]:
    the two [kd]-digit integers around [k / 2^1074 / 10^(n-kd)], the closer
    one first. *)
Definition digit_candidates (k kd n : Z) : list Z :=
  let e := n - kd in
  let N := if 0 <=? e then k else k * 10 ^ (- e) in
  let D := if 0 <=? e then 2 ^ grid * 10 ^ e else 2 ^ grid in
  let lo := N / D in
  let r := N mod D in
  let ok (s : Z) : bool :=
    (10 ^ (kd - 1) <=? s) && (s <? 10 ^ kd)
    && bool_decide (of_decimal s e = Fin k) in
  let ordered :=
    match 2 * r ?= D with
    | Lt => [lo; lo + 1]
    | Gt => [lo + 1; lo]
    | Eq => if Z.even lo then [lo; lo + 1] else [lo + 1; lo]
    end in
  filter (fun s => ok s = true) ordered.

Fixpoint shortest_digits (fuel : nat) (k kd n0 : Z) : Z * Z :=
  match fuel with
  | O => (k, grid)
  | S f =>
      match digit_candidates k kd n0, digit_candidates k kd (n0 + 1) with
      | s :: _, _ => (s, n0)
      | [], s :: _ => (s, n0 + 1)
      | [], [] => shortest_digits f k (kd + 1) n0
      end
  end.

Definition zeros (n : Z) : string := replicate_char (Z.to_nat n) "0".

Definition format_digits (ds : string) (n : Z) : string :=
  let kd := Z.of_nat (String.length ds) in
  if (kd <=? n) && (n <=? 21) then ds +:+ zeros (n - kd)
  else if (0 <? n) && (n <=? 21)
  then String.substring 0 (Z.to_nat n) ds +:+ "."
       +:+ String.substring (Z.to_nat n) (Z.to_nat (kd - n)) ds
  else if (-6 <? n) && (n <=? 0) then "0." +:+ zeros (- n) +:+ ds
  else
    let e := n - 1 in
    let mant :=
      match ds with
      | String c EmptyString => ds
      | String c r => String c ("." +:+ r)
      | EmptyString => ds
      end in
    mant +:+ "e" +:+ (if 0 <=? e then "+" else "-") +:+ pretty (Z.abs e).

Definition numberToString (x : number) : string :=
  match x with
  | NaN => "NaN"
  | PosInf => "Infinity"
  | NegInf => "-Infinity"
  | Fin 0 => "0"
  | Fin k =>
      let a := Z.abs k in
      let '(s, n) := shortest_digits 17 a 1 (point_position a) in
      (if k <? 0 then "-" else "") +:+ format_digits (pretty s) n
  end.

(** ** Values and coercions

    The scalar values a field of a fetched row can hold, and [undefined]
    for a field that is absent. *)

Inductive value : Type :=
  | VUndefined
  | VNull
  | VBool (b : bool)
  | VNum (n : number)
  | VStr (s : string).

Global Instance value_eq_dec : EqDecision value.
Proof. solve_decision. Defined.

Definition truthy (v : value) : bool :=
  match v with
  | VUndefined | VNull => false
  | VBool b => b
  | VNum n => truthy_number n
  | VStr s => negb (bool_decide (s = ""))
  end.

(** [a || b] *)
Definition or_else (a b : value) : value := if truthy a then a else b.

(** [String(v)] *)
Definition ToString (v : value) : string :=
  match v with
  | VUndefined => "undefined"
  | VNull => "null"
  | VBool true => "true"
  | VBool false => "false"
  | VNum n => numberToString n
  | VStr s => s
  end.

(** [Number(v)] *)
Definition ToNumber (v : value) : number :=
  match v with
  | VUndefined => NaN
  | VNull => zero
  | VBool true => of_Z 1
  | VBool false => zero
  | VNum n => n
  | VStr s => StringToNumber s
  end.

End Js.

(* ===================================================================== *)
(** * [src/TopProvers.jsx]                                                *)
(* ===================================================================== *)

Module TopProvers.
Import Js.

(** ** Parsing and the three provers *)

(** The capture of [/^([\d.]+)/]: the longest non-empty prefix of digits
    and dots. *)
Definition leadingNumeric (s : string) : option string :=
  match fst (span (fun c => isDigit c || bool_decide (c = "."%char)) s) with
  | EmptyString => None
  | m => Some m
  end.

Definition parseCycles (v : value) : number :=
  match v with
  | VUndefined | VNull => zero
  | _ =>
      let str := trim (ToString v) in
      match leadingNumeric str with
      | None => zero
      | Some m =>
          let num := parseFloat m in
          if isFinite num then num else zero
      end
  end.

(** An element of [PROVERS]. *)
Record Prover : Type := { label : string; addr : string }.

Definition PROVERS : list Prover :=
  [ {| label := "Prover 1"; addr := "0x6220892679110898abd78847d6f0a639e3408dc7" |};
    {| label := "Prover 2"; addr := "0x34a2df023b535c1bd79a791b259adea947f603e3" |};
    {| label := "Prover 3"; addr := "0x11973257c9210d852084f7b97f672080c1dbbb53" |} ].

(** ** Dates

    A [Date] is seen through its UTC accessors only. A valid date has its
    fields in the calendar ranges. *)

Record Date : Type := {
  getUTCFullYear : Z;
  getUTCMonth : Z;
  getUTCDate : Z;
  getUTCHours : Z;
  getUTCMinutes : Z;
  getUTCSeconds : Z;
  getUTCMilliseconds : Z
}.

Definition valid_date (now : Date) : Prop :=
  0 <= getUTCMonth now <= 11 /\ 1 <= getUTCDate now <= 31 /\
  0 <= getUTCHours now <= 23 /\ 0 <= getUTCMinutes now <= 59 /\
  0 <= getUTCSeconds now <= 59 /\ 0 <= getUTCMilliseconds now <= 999.





Definition isSnapshotWindow (now : Date) : bool :=
  let h := getUTCHours now in
  let m := getUTCMinutes now in
  let anchorOk := Z.rem (h - 10 + 24) 2 =? 0 in
  let minuteOk := m <? 5 in
  anchorOk && minuteOk.

(** An integer in a template literal or under [String(..)]. *)
Definition showInt (z : Z) : string := pretty z.

Definition snapshotBucketKey (now : Date) : string :=
  let y := getUTCFullYear now in
  let mo := padStart 2 "0" (showInt (getUTCMonth now + 1)) in
  let d := padStart 2 "0" (showInt (getUTCDate now)) in
  let h := padStart 2 "0" (showInt (getUTCHours now)) in
  showInt y +:+ "-" +:+ mo +:+ "-" +:+ d +:+ "T" +:+ h +:+ ":00Z".



(** [Date.prototype.toISOString] *)
Definition toISOString (now : Date) : string :=
  let y := getUTCFullYear now in
  let year :=
    if (0 <=? y) && (y <=? 9999) then padStart 4 "0" (showInt y)
    else (if y <? 0 then "-" else "+") +:+ padStart 6 "0" (showInt (Z.abs y)) in
  let two (z : Z) := padStart 2 "0" (showInt z) in
  year +:+ "-" +:+ two (getUTCMonth now + 1) +:+ "-" +:+ two (getUTCDate now)
  +:+ "T" +:+ two (getUTCHours now) +:+ ":" +:+ two (getUTCMinutes now)
  +:+ ":" +:+ two (getUTCSeconds now)
  +:+ "." +:+ padStart 3 "0" (showInt (getUTCMilliseconds now)) +:+ "Z".

(** ** Rows and snapshots *)

Record MetricsRow : Type := {
  row_label : string;
  row_addr : string;
  orders_taken : number;
  cycles_proved : number
}.

Record Snapshot : Type := {
  bucket : string;
  captured_at : string;
  provers : list MetricsRow
}.

Global Instance MetricsRow_eq_dec : EqDecision MetricsRow.
Proof. solve_decision. Defined.

Global Instance Snapshot_eq_dec : EqDecision Snapshot.
Proof. solve_decision. Defined.

(** A row of the SQL answer; a field that is absent is [VUndefined]. *)
Record ApiRow : Type := {
  api_prover_addr : value;
  api_orders_taken : value;
  api_cycles_proved : value
}.

(** What the poll can get back from the analytics endpoint. [Body rows data]
    is a JSON answer whose [rows] and [data] members are arrays of objects,
    or [None] where the member is absent or null. *)
Inductive Response : Type :=
  | NetworkFailure
  | HttpStatus (status : Z)
  | InvalidBody
  | Body (rows data : option (list ApiRow)).

(** The exceptions that occur. *)
Inductive Exn : Type :=
  | TypeError
  | SyntaxError
  | SecurityError
  | QuotaExceededError
  | FetchError (message : string).

Definition exn_message (e : Exn) : string :=
  match e with
  | TypeError => "TypeError"
  | SyntaxError => "SyntaxError"
  | SecurityError => "SecurityError"
  | QuotaExceededError => "QuotaExceededError"
  | FetchError m => m
  end.

(** A value of the object [byAddr]. *)
Record Metrics : Type := { m_orders_taken : number; m_cycles_proved : number }.

(** [(r.prover_addr || "").toLowerCase()]; a truthy value that is not a
    string has no [toLowerCase]. *)
Definition addrKey (r : ApiRow) : Exn + string :=
  match or_else (api_prover_addr r) (VStr "") with
  | VStr s => inr (toLowerCase s)
  | _ => inl TypeError
  end.

(** The pair that [data.map] makes of a row. *)
Definition entryOf (r : ApiRow) : Exn + (string * Metrics) :=
  match addrKey r with
  | inl e => inl e
  | inr k =>
      inr (k, {| m_orders_taken := ToNumber (or_else (api_orders_taken r) (VNum zero));
                 m_cycles_proved := parseCycles (api_cycles_proved r) |})
  end.

(** [data.map(..)], stopping at the first row that throws. *)
Fixpoint entriesOf (data : list ApiRow) : Exn + list (string * Metrics) :=
  match data with
  | [] => inr []
  | r :: rest =>
      match entryOf r with
      | inl e => inl e
      | inr kv =>
          match entriesOf rest with
          | inl e => inl e
          | inr kvs => inr (kv :: kvs)
          end
      end
  end.

(** [Object.fromEntries]: a later entry overrides an earlier one. *)
Definition fromEntries (es : list (string * Metrics)) : gmap string Metrics :=
  foldl (fun m kv => <[kv.1 := kv.2]> m) ∅ es.

(** [PROVERS.map(..)] over the object [byAddr]. The three keys looked up
    are the fixed addresses, none of which names an inherited property. *)
Definition tableFrom (byAddr : gmap string Metrics) : list MetricsRow :=
  map (fun p =>
         {| row_label := label p;
            row_addr := addr p;
            orders_taken :=
              from_option m_orders_taken zero (byAddr !! toLowerCase (addr p));
            cycles_proved :=
              from_option m_cycles_proved zero (byAddr !! toLowerCase (addr p)) |})
      PROVERS.

(** [json?.rows || json?.data || []]: an array, empty or not, is truthy. *)
Definition dataOf (rows data : option (list ApiRow)) : list ApiRow :=
  match rows, data with
  | Some rs, _ => rs
  | None, Some ds => ds
  | None, None => []
  end.

(** The part of [fetchData] between the request and the state updates. *)
Definition fetchTable (resp : Response) : Exn + list MetricsRow :=
  match resp with
  | NetworkFailure => inl (FetchError "Failed to fetch")
  | HttpStatus st => inl (FetchError ("Failed to fetch (" +:+ showInt st +:+ ")"))
  | InvalidBody => inl SyntaxError
  | Body rows data =>
      match entriesOf (dataOf rows data) with
      | inl e => inl e
      | inr es => inr (tableFrom (fromEntries es))
      end
  end.

(** ** The session: state, timers and the world outside *)

(** The item under [STORAGE_KEY]: absent (or the empty string), text that
    is not JSON, JSON that is not an array, or the log. The log is kept as
    the snapshots it holds; its JSON text is not modelled. *)
Inductive Stored : Type :=
  | NoItem
  | Unparsable
  | NotArray
  | Log (entries : list Snapshot).

(** What the environment does during one callback: whether touching
    [localStorage] throws, whether writing to it throws, the two places an
    endpoint can be configured in, and whether the POST fails. *)
Record Env : Type := {
  storageDenied : bool;
  writeFails : bool;
  viteEndpoint : option string;
  windowEndpoint : option string;
  postFails : bool
}.

(** The two functions handed to timers. [maybeSnapshot] is a closure over
    the [rows] of the render that created it. *)
Inductive Callback : Type :=
  | FetchData
  | MaybeSnapshot (rows : list MetricsRow).

Inductive TimerKind : Type := Interval | Timeout.

Record Timer : Type := {
  timer_id : nat;
  timer_kind : TimerKind;
  timer_delay : Z;
  timer_cb : Callback
}.

(** Not yet mounted, mounted, unmounted. *)
Inductive Phase : Type := Fresh | Mounted | Unmounted.

Global Instance Phase_eq_dec : EqDecision Phase.
Proof. solve_decision. Defined.

Global Instance TimerKind_eq_dec : EqDecision TimerKind.
Proof. solve_decision. Defined.

(** The state of one browser session as far as the component can see or
    change it:
    - [rows]: the [rows] state;
    - [loading]: the [loading] state;
    - [error]: the [error] state;
    - [lastBucketRef]: [lastBucketRef.current];
    - [stop]: the [stop] flag of the poll effect;
    - [pollTimer]: [t] in the poll effect's cleanup;
    - [snapshotTimer]: [t] in the snapshot effect's cleanup;
    - [phase]: where the component is in its life;
    - [timers]: the timers that are armed;
    - [nextTimer]: the next timer id;
    - [inflight]: requests of [fetchData] not yet settled;
    - [storage]: the item under [STORAGE_KEY];
    - [console]: what was written to the console;
    - [posted]: the POST requests sent;
    - [handed]: history: the arguments of [persistSnapshot], in call order; *)

Record World : Type := {
  rows : list MetricsRow;
  loading : bool;
  error : option string;
  lastBucketRef : option string;
  stop : bool;
  pollTimer : option nat;
  snapshotTimer : option nat;
  phase : Phase;
  timers : list Timer;
  nextTimer : nat;
  inflight : nat;
  storage : Stored;
  console : list string;
  posted : list (string * Snapshot);
  handed : list Snapshot
}.

Definition set_rows (v : list MetricsRow) (w : World) : World :=
  {| rows := v; loading := loading w; error := error w; lastBucketRef :=
  lastBucketRef w; stop := stop w; pollTimer := pollTimer w; snapshotTimer :=
  snapshotTimer w; phase := phase w; timers := timers w; nextTimer :=
  nextTimer w; inflight := inflight w; storage := storage w; console :=
  console w; posted := posted w; handed := handed w |}.

Definition set_loading (v : bool) (w : World) : World :=
  {| rows := rows w; loading := v; error := error w; lastBucketRef :=
  lastBucketRef w; stop := stop w; pollTimer := pollTimer w; snapshotTimer :=
  snapshotTimer w; phase := phase w; timers := timers w; nextTimer :=
  nextTimer w; inflight := inflight w; storage := storage w; console :=
  console w; posted := posted w; handed := handed w |}.

Definition set_error (v : option string) (w : World) : World :=
  {| rows := rows w; loading := loading w; error := v; lastBucketRef :=
  lastBucketRef w; stop := stop w; pollTimer := pollTimer w; snapshotTimer :=
  snapshotTimer w; phase := phase w; timers := timers w; nextTimer :=
  nextTimer w; inflight := inflight w; storage := storage w; console :=
  console w; posted := posted w; handed := handed w |}.

Definition set_lastBucketRef (v : option string) (w : World) : World :=
  {| rows := rows w; loading := loading w; error := error w; lastBucketRef :=
  v; stop := stop w; pollTimer := pollTimer w; snapshotTimer := snapshotTimer
  w; phase := phase w; timers := timers w; nextTimer := nextTimer w; inflight
  := inflight w; storage := storage w; console := console w; posted := posted
  w; handed := handed w |}.

Definition set_stop (v : bool) (w : World) : World :=
  {| rows := rows w; loading := loading w; error := error w; lastBucketRef :=
  lastBucketRef w; stop := v; pollTimer := pollTimer w; snapshotTimer :=
  snapshotTimer w; phase := phase w; timers := timers w; nextTimer :=
  nextTimer w; inflight := inflight w; storage := storage w; console :=
  console w; posted := posted w; handed := handed w |}.

Definition set_pollTimer (v : option nat) (w : World) : World :=
  {| rows := rows w; loading := loading w; error := error w; lastBucketRef :=
  lastBucketRef w; stop := stop w; pollTimer := v; snapshotTimer :=
  snapshotTimer w; phase := phase w; timers := timers w; nextTimer :=
  nextTimer w; inflight := inflight w; storage := storage w; console :=
  console w; posted := posted w; handed := handed w |}.

Definition set_snapshotTimer (v : option nat) (w : World) : World :=
  {| rows := rows w; loading := loading w; error := error w; lastBucketRef :=
  lastBucketRef w; stop := stop w; pollTimer := pollTimer w; snapshotTimer :=
  v; phase := phase w; timers := timers w; nextTimer := nextTimer w; inflight
  := inflight w; storage := storage w; console := console w; posted := posted
  w; handed := handed w |}.

Definition set_phase (v : Phase) (w : World) : World :=
  {| rows := rows w; loading := loading w; error := error w; lastBucketRef :=
  lastBucketRef w; stop := stop w; pollTimer := pollTimer w; snapshotTimer :=
  snapshotTimer w; phase := v; timers := timers w; nextTimer := nextTimer w;
  inflight := inflight w; storage := storage w; console := console w; posted
  := posted w; handed := handed w |}.

Definition set_timers (v : list Timer) (w : World) : World :=
  {| rows := rows w; loading := loading w; error := error w; lastBucketRef :=
  lastBucketRef w; stop := stop w; pollTimer := pollTimer w; snapshotTimer :=
  snapshotTimer w; phase := phase w; timers := v; nextTimer := nextTimer w;
  inflight := inflight w; storage := storage w; console := console w; posted
  := posted w; handed := handed w |}.

Definition set_nextTimer (v : nat) (w : World) : World :=
  {| rows := rows w; loading := loading w; error := error w; lastBucketRef :=
  lastBucketRef w; stop := stop w; pollTimer := pollTimer w; snapshotTimer :=
  snapshotTimer w; phase := phase w; timers := timers w; nextTimer := v;
  inflight := inflight w; storage := storage w; console := console w; posted
  := posted w; handed := handed w |}.

Definition set_inflight (v : nat) (w : World) : World :=
  {| rows := rows w; loading := loading w; error := error w; lastBucketRef :=
  lastBucketRef w; stop := stop w; pollTimer := pollTimer w; snapshotTimer :=
  snapshotTimer w; phase := phase w; timers := timers w; nextTimer :=
  nextTimer w; inflight := v; storage := storage w; console := console w;
  posted := posted w; handed := handed w |}.

Definition set_storage (v : Stored) (w : World) : World :=
  {| rows := rows w; loading := loading w; error := error w; lastBucketRef :=
  lastBucketRef w; stop := stop w; pollTimer := pollTimer w; snapshotTimer :=
  snapshotTimer w; phase := phase w; timers := timers w; nextTimer :=
  nextTimer w; inflight := inflight w; storage := v; console := console w;
  posted := posted w; handed := handed w |}.

Definition set_console (v : list string) (w : World) : World :=
  {| rows := rows w; loading := loading w; error := error w; lastBucketRef :=
  lastBucketRef w; stop := stop w; pollTimer := pollTimer w; snapshotTimer :=
  snapshotTimer w; phase := phase w; timers := timers w; nextTimer :=
  nextTimer w; inflight := inflight w; storage := storage w; console := v;
  posted := posted w; handed := handed w |}.

Definition set_posted (v : list (string * Snapshot)) (w : World) : World :=
  {| rows := rows w; loading := loading w; error := error w; lastBucketRef :=
  lastBucketRef w; stop := stop w; pollTimer := pollTimer w; snapshotTimer :=
  snapshotTimer w; phase := phase w; timers := timers w; nextTimer :=
  nextTimer w; inflight := inflight w; storage := storage w; console :=
  console w; posted := v; handed := handed w |}.

Definition set_handed (v : list Snapshot) (w : World) : World :=
  {| rows := rows w; loading := loading w; error := error w; lastBucketRef :=
  lastBucketRef w; stop := stop w; pollTimer := pollTimer w; snapshotTimer :=
  snapshotTimer w; phase := phase w; timers := timers w; nextTimer :=
  nextTimer w; inflight := inflight w; storage := storage w; console :=
  console w; posted := posted w; handed := v |}.

(** A session starts with the state of the first render; only the stored
    item is left over from earlier sessions. *)
Definition initial (st : Stored) : World :=
  {| rows := []; loading := true; error := None; lastBucketRef := None;
     stop := false; pollTimer := None; snapshotTimer := None; phase := Fresh;
     timers := []; nextTimer := 1%nat; inflight := 0%nat;
     storage := st; console := []; posted := []; handed := [] |}.

(** ** Computations that change the world and may throw *)

(** How a computation ends: with a value, or with an exception thrown. *)
Inductive Completion (A : Type) : Type :=
  | Normal (a : A)
  | Throw (e : Exn).
Arguments Normal {A} a.
Arguments Throw {A} e.

Definition M (A : Type) : Type := World -> Completion A * World.

Definition ret {A : Type} (a : A) : M A := fun w => (Normal a, w).

Definition bind {A B : Type} (m : M A) (k : A -> M B) : M B :=
  fun w =>
    match m w with
    | (Normal a, w') => k a w'
    | (Throw e, w') => (Throw e, w')
    end.

Definition throw {A : Type} (e : Exn) : M A := fun w => (Throw e, w).

(** [try { m } catch (e) { h e }] *)
Definition tryCatch {A : Type} (m : M A) (h : Exn -> M A) : M A :=
  fun w =>
    match m w with
    | (Throw e, w') => h e w'
    | r => r
    end.

Definition gets {A : Type} (f : World -> A) : M A := fun w => (Normal (f w), w).

Definition modify (f : World -> World) : M unit := fun w => (Normal tt, f w).

Notation "x <- m ;; k" := (bind m (fun x => k))
  (at level 100, m at next level, right associativity).
Notation "m ;;; k" := (bind m (fun _ => k))
  (at level 100, right associativity).

(** [console.warn] and [console.error] *)
Definition warn (msg : string) : M unit :=
  modify (fun w => set_console (console w ++ [msg]) w).

(** A call of an async function whose promise is dropped: a rejection is
    reported by the engine and never reaches the caller. *)
Definition fireAndForget (m : M unit) : M unit :=
  tryCatch m (fun e => warn ("Uncaught (in promise) " +:+ exn_message e)).

(** ** Persistence *)

(** [JSON.parse(localStorage.getItem(STORAGE_KEY) || "[]")] followed by the
    first use of the result as an array. *)
Definition readLog (env : Env) : M (list Snapshot) :=
  if storageDenied env then throw SecurityError
  else
    st <- gets storage ;;
    match st with
    | NoItem => ret []
    | Unparsable => throw SyntaxError
    | NotArray => throw TypeError
    | Log l => ret l
    end.

(** [localStorage.setItem(STORAGE_KEY, JSON.stringify(prev))] *)
Definition writeLog (env : Env) (l : list Snapshot) : M unit :=
  if storageDenied env then throw SecurityError
  else if writeFails env then throw QuotaExceededError
  else modify (set_storage (Log l)).

(** [prev.push(snapshot)] and the [splice] that keeps the last 1000. *)
Definition pushCapped (prev : list Snapshot) (snapshot : Snapshot) : list Snapshot :=
  let prev := prev ++ [snapshot] in
  if bool_decide (1000 < length prev)%nat
  then drop (length prev - 1000) prev
  else prev.

(** The endpoint: [import.meta.env.VITE_METRICS_ENDPOINT] if set and not
    empty, else [window.ENV.METRICS_ENDPOINT] if set and not empty. *)
Definition resolveEndpoint (env : Env) : option string :=
  match viteEndpoint env with
  | Some url => if bool_decide (url = "") then None else Some url
  | None => None
  end ∪
  match windowEndpoint env with
  | Some url => if bool_decide (url = "") then None else Some url
  | None => None
  end.

(** [await fetch(endpoint, { method: "POST", .. })] *)
Definition post (env : Env) (url : string) (snapshot : Snapshot) : M unit :=
  modify (fun w => set_posted (posted w ++ [(url, snapshot)]) w) ;;;
  if postFails env then throw (FetchError "Failed to fetch") else ret tt.

(** The first line records the call in the history; the rest is the
    function. The request is sent before the function first suspends; its
    failure is caught when the function resumes, which is taken to happen
    at once. *)
Definition persistSnapshot (env : Env) (snapshot : Snapshot) : M unit :=
  modify (fun w => set_handed (handed w ++ [snapshot]) w) ;;;
  tryCatch
    (prev <- readLog env ;;
     writeLog env (pushCapped prev snapshot))
    (fun e => warn "Failed to persist to localStorage") ;;;
  match resolveEndpoint env with
  | None => ret tt
  | Some endpoint =>
      tryCatch (post env endpoint snapshot)
               (fun e => warn "Failed to POST snapshot to backend")
  end.

(** ** The snapshot job *)

(** [now] is the value of [new Date()] at the call. *)
Definition maybeSnapshot (rows : list MetricsRow) (now : Date) (env : Env) : M unit :=
  if bool_decide (length rows = 0%nat) then ret tt
  else if negb (isSnapshotWindow now) then ret tt
  else
    let bucket := snapshotBucketKey now in
    last <- gets lastBucketRef ;;
    if bool_decide (last = Some bucket) then ret tt
    else
      modify (set_lastBucketRef (Some bucket)) ;;;
      let payload :=
        {| bucket := bucket;
           captured_at := toISOString now;
           provers :=
             map (fun r => {| row_label := row_label r; row_addr := row_addr r;
                              orders_taken := orders_taken r;
                              cycles_proved := cycles_proved r |}) rows |} in
      fireAndForget (persistSnapshot env payload).

(** ** Timers and effects *)

(** [setInterval] and [setTimeout]: arm a timer and return its id. *)
Definition setTimer (kind : TimerKind) (cb : Callback) (delay : Z) : M nat :=
  fun w =>
    let id := nextTimer w in
    (Normal id,
     set_nextTimer (S id)
       (set_timers (timers w ++ [{| timer_id := id; timer_kind := kind;
                                    timer_delay := delay; timer_cb := cb |}]) w)).

Definition setInterval := setTimer Interval.
Definition setTimeout := setTimer Timeout.

Definition disarm (id : nat) (ts : list Timer) : list Timer :=
  filter (fun t => timer_id t ≠ id) ts.

(** [clearInterval(t)]; nothing happens for an id that is not armed. *)
Definition clearInterval (t : option nat) : M unit :=
  match t with
  | Some id => modify (fun w => set_timers (disarm id (timers w)) w)
  | None => ret tt
  end.

(** [fetchData] up to its first [await]: the request leaves. *)
Definition fetchData_start : M unit :=
  modify (set_error None) ;;;
  modify (fun w => set_inflight (S (inflight w)) w).

(** The effect on [[rows]]. *)
Definition snapshotEffect : M unit :=
  rs <- gets rows ;;
  t <- setInterval (MaybeSnapshot rs) 60000 ;;
  _ <- setTimeout (MaybeSnapshot rs) 500 ;;
  modify (set_snapshotTimer (Some t)).

(** Its cleanup: [() => clearInterval(t)]. *)
Definition snapshotCleanup : M unit :=
  t <- gets snapshotTimer ;;
  clearInterval t.

(** The effect on [[apiUrl]]. *)
Definition pollEffect : M unit :=
  modify (set_stop false) ;;;
  fetchData_start ;;;
  t <- setInterval FetchData 60000 ;;
  modify (set_pollTimer (Some t)).

(** Its cleanup: [stop = true; clearInterval(t)]. *)
Definition pollCleanup : M unit :=
  modify (set_stop true) ;;;
  t <- gets pollTimer ;;
  clearInterval t.

(** [setRows(table)]: the table is a new array, so the component renders
    again and the effect on [[rows]] is torn down and set up anew. *)
Definition setRows (table : list MetricsRow) : M unit :=
  modify (set_rows table) ;;;
  snapshotCleanup ;;;
  snapshotEffect.

(** [if (!stop) m] *)
Definition unlessStopped (m : M unit) : M unit :=
  st <- gets stop ;;
  if st then ret tt else m.

(** [fetchData] from the answer of the request on. *)
Definition fetchData_settle (resp : Response) : M unit :=
  tryCatch
    match fetchTable resp with
    | inl e => throw e
    | inr table => unlessStopped (setRows table)
    end
    (fun e =>
       warn (exn_message e) ;;;
       unlessStopped (modify (set_error (Some (exn_message e))))) ;;;
  unlessStopped (modify (set_loading false)).

(** ** What can happen in a session *)

(** The component is mounted or unmounted, an armed timer fires at a date
    and in an environment, or a request of [fetchData] is answered. *)
Inductive Action : Type :=
  | Mount
  | Unmount
  | Fire (id : nat) (now : Date) (env : Env)
  | Settle (resp : Response).

Definition runCallback (cb : Callback) (now : Date) (env : Env) : M unit :=
  match cb with
  | FetchData => fetchData_start
  | MaybeSnapshot rs => maybeSnapshot rs now env
  end.

(** The timer armed under [id], if any. *)
Definition armed (id : nat) (w : World) : option Timer :=
  list_find (fun t => timer_id t = id) (timers w) ≫= fun p => Some p.2.

(** One action. A timeout is disarmed when it fires, an interval stays. *)
Definition step (a : Action) : M unit :=
  match a with
  | Mount =>
      ph <- gets phase ;;
      match ph with
      | Fresh => modify (set_phase Mounted) ;;; pollEffect ;;; snapshotEffect
      | _ => ret tt
      end
  | Unmount =>
      ph <- gets phase ;;
      match ph with
      | Mounted => modify (set_phase Unmounted) ;;; pollCleanup ;;; snapshotCleanup
      | _ => ret tt
      end
  | Fire id now env =>
      t <- gets (armed id) ;;
      match t with
      | None => ret tt
      | Some t =>
          match timer_kind t with
          | Timeout => modify (fun w => set_timers (disarm id (timers w)) w)
          | Interval => ret tt
          end ;;;
          runCallback (timer_cb t) now env
      end
  | Settle resp =>
      n <- gets inflight ;;
      match n with
      | O => ret tt
      | S m => modify (set_inflight m) ;;; fetchData_settle resp
      end
  end.

(** An error that escapes a callback is reported; the loop goes on. *)
Definition dispatch (w : World) (a : Action) : World :=
  match step a w with
  | (Normal _, w') => w'
  | (Throw e, w') => set_console (console w' ++ ["Uncaught " +:+ exn_message e]) w'
  end.

(** A session is a sequence of actions. *)
Definition run (acts : list Action) (w : World) : World := foldl dispatch w acts.

(** ** Vocabulary of the properties *)

(** [String(z).padStart(2, "0")] *)
Definition pad2 (z : Z) : string := padStart 2 "0" (showInt z).

(** [s] is made of two digits and reads as [z]. *)
Definition two_digits_of (z : Z) (s : string) : bool :=
  match s with
  | String a (String b EmptyString) =>
      isDigit a && isDigit b && (digitsVal 10 digitVal 0 s =? z)
  | _ => false
  end.

(** [s] is made of four digits. *)
Definition four_digits (s : string) : bool :=
  match s with
  | String a (String b (String c (String d EmptyString))) =>
      isDigit a && isDigit b && isDigit c && isDigit d
  | _ => false
  end.

(** What follows the year in a key. *)
Definition keyTail (now : Date) : string :=
  "-" +:+ pad2 (getUTCMonth now + 1) +:+ "-" +:+ pad2 (getUTCDate now)
  +:+ "T" +:+ pad2 (getUTCHours now) +:+ ":00Z".

(** The snapshot [maybeSnapshot] builds from the rows and the time. *)
Definition payloadOf (rows : list MetricsRow) (now : Date) : Snapshot :=
  {| bucket := snapshotBucketKey now;
     captured_at := toISOString now;
     provers := rows |}.

(** What a call of [persistSnapshot] makes of the stored item. *)
Definition storedAfter (env : Env) (snapshot : Snapshot) (st : Stored) : Stored :=
  if storageDenied env || writeFails env then st
  else match st with
       | NoItem => Log (pushCapped [] snapshot)
       | Log prev => Log (pushCapped prev snapshot)
       | _ => st
       end.

(** Two worlds that differ at most in what lies outside the component:
    the stored item, the console and the requests sent. *)
Definition same_inside (w w' : World) : Prop :=
  rows w' = rows w /\ loading w' = loading w /\ error w' = error w /\
  lastBucketRef w' = lastBucketRef w /\ stop w' = stop w /\
  pollTimer w' = pollTimer w /\ snapshotTimer w' = snapshotTimer w /\
  phase w' = phase w /\ timers w' = timers w /\ nextTimer w' = nextTimer w /\
  inflight w' = inflight w.



(** The date at which a timer fires. *)
Definition fireDate (a : Action) : option Date :=
  match a with
  | Fire _ now _ => Some now
  | _ => None
  end.

(** The dates at which timers fire in a session, in order. *)
Definition fireDates (acts : list Action) : list Date := omap fireDate acts.



(** The remembered bucket, the history and what lies outside are as before. *)
Definition same_record (w w' : World) : Prop :=
  lastBucketRef w' = lastBucketRef w /\ handed w' = handed w /\
  storage w' = storage w /\ posted w' = posted w.

(** The world in which the callback of a timer runs. *)
Definition afterFiring (id : nat) (t : Timer) (w : World) : World :=
  match timer_kind t with
  | Timeout => set_timers (disarm id (timers w)) w
  | Interval => w
  end.



(** As long as the state holds no rows, no callback holds any. *)
Definition no_rows_captured (w : World) : Prop :=
  rows w = [] ->
  forall t rs, t ∈ timers w -> timer_cb t = MaybeSnapshot rs -> rs = [].

(** While mounted every interval is one of the two the cleanups know; once
    unmounted no interval is armed and the poll is stopped. *)
Definition intervals_known (w : World) : Prop :=
  match phase w with
  | Fresh => timers w = [] /\ inflight w = 0%nat
  | Mounted =>
      forall t, t ∈ timers w -> timer_kind t = Interval ->
                pollTimer w = Some (timer_id t) \/ snapshotTimer w = Some (timer_id t)
  | Unmounted =>
      stop w = true /\ forall t, t ∈ timers w -> timer_kind t = Timeout
  end.

(** ** Sample data *)

(** A table as the poll leaves it in the state. *)
Definition sampleRows : list MetricsRow :=
  [ {| row_label := "Prover 1";
       row_addr := "0x6220892679110898abd78847d6f0a639e3408dc7";
       orders_taken := of_Z 7; cycles_proved := of_Z 1200 |};
    {| row_label := "Prover 2";
       row_addr := "0x34a2df023b535c1bd79a791b259adea947f603e3";
       orders_taken := zero; cycles_proved := zero |};
    {| row_label := "Prover 3";
       row_addr := "0x11973257c9210d852084f7b97f672080c1dbbb53";
       orders_taken := of_Z 2; cycles_proved := dyadic 25 (-1) |} ].

(** A date on the minute. *)
Definition at_ (y mo d h mi : Z) : Date :=
  {| getUTCFullYear := y; getUTCMonth := mo; getUTCDate := d; getUTCHours := h;
     getUTCMinutes := mi; getUTCSeconds := 0; getUTCMilliseconds := 0 |}.

(** Storage and network in order, no sink configured. *)
Definition quietEnv : Env :=
  {| storageDenied := false; writeFails := false; viteEndpoint := None;
     windowEndpoint := None; postFails := false |}.

(** A storage that cannot be written and a sink that cannot be reached. *)
Definition failingEnv : Env :=
  {| storageDenied := false; writeFails := true; viteEndpoint := None;
     windowEndpoint := Some "https://sink.example/metrics"; postFails := true |}.

(** A storage whose item is not JSON, in a fresh session. *)
Definition brokenStorageWorld : World := initial Unparsable.

(** An answer of the analytics endpoint with a row for the first prover
    only, its address in upper case. *)
Definition sampleAnswer : Response :=
  Body (Some [ {| api_prover_addr := VStr "0x6220892679110898ABD78847D6F0A639E3408DC7";
                  api_orders_taken := VStr "7";
                  api_cycles_proved := VStr "12.5K" |} ]) None.

(** Mount, first answer, the tick half a second after the rows changed
    (10:00), the interval ticks at 10:01 and 12:00. *)
Definition sessionTwoHours : list Action :=
  [ Mount; Settle sampleAnswer;
    Fire 5 (at_ 2025 0 1 10 0) quietEnv;
    Fire 4 (at_ 2025 0 1 10 1) quietEnv;
    Fire 4 (at_ 2025 0 1 12 0) quietEnv ].


(** The table made from [sampleAnswer]. *)
Definition sampleTable : list MetricsRow :=
  [ {| row_label := "Prover 1";
       row_addr := "0x6220892679110898abd78847d6f0a639e3408dc7";
       orders_taken := of_Z 7; cycles_proved := dyadic 25 (-1) |};
    {| row_label := "Prover 2";
       row_addr := "0x34a2df023b535c1bd79a791b259adea947f603e3";
       orders_taken := zero; cycles_proved := zero |};
    {| row_label := "Prover 3";
       row_addr := "0x11973257c9210d852084f7b97f672080c1dbbb53";
       orders_taken := zero; cycles_proved := zero |} ].

(** A row whose [orders_taken] is not a number. *)
Definition malformedOrders : ApiRow :=
  {| api_prover_addr := VStr "0x6220892679110898abd78847d6f0a639e3408dc7";
     api_orders_taken := VStr "abc";
     api_cycles_proved := VStr "abc" |}.

(** ** Further vocabulary *)

(** Local persistence cannot succeed: the storage refuses, or the item is
    not a log. *)
Definition localFails (env : Env) (st : Stored) : bool :=
  storageDenied env || writeFails env ||
  match st with
  | Unparsable | NotArray => true
  | _ => false
  end.

(** The log an item holds; the empty log for an absent item. *)
Definition logOf (st : Stored) : list Snapshot :=
  match st with
  | Log l => l
  | _ => []
  end.

(** The storage can be read and written. *)
Definition healthy (env : Env) : Prop :=
  storageDenied env = false /\ writeFails env = false.

(** The environment in which a timer fires. *)
Definition fireEnv (a : Action) : option Env :=
  match a with
  | Fire _ _ env => Some env
  | _ => None
  end.

(** The environments of a session, in order. *)
Definition fireEnvs (acts : list Action) : list Env := omap fireEnv acts.

(** The POST that [persistSnapshot] sends in an environment. *)
Definition postsOf (env : Env) (snapshot : Snapshot) : list (string * Snapshot) :=
  match resolveEndpoint env with
  | Some url => [(url, snapshot)]
  | None => []
  end.

(** A sink at the Vite variable, another one at [window.ENV]. *)
Definition bothSinksEnv : Env :=
  {| storageDenied := true; writeFails := false;
     viteEndpoint := Some "https://vite.example/in";
     windowEndpoint := Some "https://window.example/in"; postFails := false |}.

Global Instance Exn_eq_dec : EqDecision Exn.
Proof. solve_decision. Defined.

(** The two numbers the table takes from a fetched row. *)
Definition metricsOf (r : ApiRow) : Metrics :=
  {| m_orders_taken := ToNumber (or_else (api_orders_taken r) (VNum zero));
     m_cycles_proved := parseCycles (api_cycles_proved r) |}.

(** The last fetched row whose address, in lower case, is [k]. *)
Definition lastFor (k : string) (data : list ApiRow) : option ApiRow :=
  last (filter (fun r => addrKey r = inr k) data).

(** The row of a prover as the fetched rows determine it: the numbers of
    the last row that names the prover, zeros when no row does. *)
Definition rowFor (data : list ApiRow) (p : Prover) : MetricsRow :=
  {| row_label := label p;
     row_addr := addr p;
     orders_taken :=
       from_option (fun r => m_orders_taken (metricsOf r)) zero (lastFor (addr p) data);
     cycles_proved :=
       from_option (fun r => m_cycles_proved (metricsOf r)) zero (lastFor (addr p) data) |}.

(** The row with its address, when it is a string, in lower case. *)
Definition lowerAddr (r : ApiRow) : ApiRow :=
  {| api_prover_addr :=
       match api_prover_addr r with
       | VStr s => VStr (toLowerCase s)
       | v => v
       end;
     api_orders_taken := api_orders_taken r;
     api_cycles_proved := api_cycles_proved r |}.

(** An address that is truthy and not a string. *)
Definition badAddr (r : ApiRow) : Prop :=
  truthy (api_prover_addr r) = true /\ forall s, api_prover_addr r <> VStr s.

(** Two rows for the first prover, the second in upper case, and a row
    for an address that is not listed. *)
Definition duplicateRows : list ApiRow :=
  [ {| api_prover_addr := VStr "0x6220892679110898abd78847d6f0a639e3408dc7";
       api_orders_taken := VNum (of_Z 1); api_cycles_proved := VStr "10" |};
    {| api_prover_addr := VStr "0xffffffffffffffffffffffffffffffffffffffff";
       api_orders_taken := VNum (of_Z 9); api_cycles_proved := VStr "90" |};
    {| api_prover_addr := VStr "0X6220892679110898ABD78847D6F0A639E3408DC7";
       api_orders_taken := VNum (of_Z 2); api_cycles_proved := VStr "20" |} ].

(** A row whose address is a number. *)
Definition numericAddrRow : ApiRow :=
  {| api_prover_addr := VNum (of_Z 5);
     api_orders_taken := VNum (of_Z 1); api_cycles_proved := VStr "10" |}.

(** Every timeout that is armed carries the snapshot job. *)
Definition timeouts_snapshot (w : World) : Prop :=
  forall t, t ∈ timers w -> timer_kind t = Timeout ->
            exists rs, timer_cb t = MaybeSnapshot rs.

(** The timers that are intervals. *)
Definition intervalsOf (w : World) : list Timer :=
  filter (fun t => timer_kind t = Interval) (timers w).

(** While mounted: the poll is not stopped, timer ids are distinct and
    below the next id, and the intervals are the poll and, after it, the
    snapshot job over the rows of the state. *)
Definition two_intervals (w : World) : Prop :=
  match phase w with
  | Fresh => timers w = [] /\ inflight w = 0%nat
  | Mounted =>
      stop w = false /\
      NoDup (map timer_id (timers w)) /\
      (forall t, t ∈ timers w -> (timer_id t < nextTimer w)%nat) /\
      exists p s,
        pollTimer w = Some p /\ snapshotTimer w = Some s /\ (p < s)%nat /\
        intervalsOf w
        = [ {| timer_id := p; timer_kind := Interval; timer_delay := 60000;
               timer_cb := FetchData |};
            {| timer_id := s; timer_kind := Interval; timer_delay := 60000;
               timer_cb := MaybeSnapshot (rows w) |} ]
  | Unmounted => True
  end.

(** A snapshot taken from rows [rs] at a date of [D] inside a window. *)
Definition taken_in_window (D : Date -> Prop) (s : Snapshot) : Prop :=
  exists rs now,
    D now /\ isSnapshotWindow now = true /\ rs <> [] /\ s = payloadOf rs now.

(** Mount, one answer, unmount. *)
Definition sessionUnmounted : list Action := [Mount; Settle sampleAnswer; Unmount].

(** ** Vocabulary of the parsers *)

(** A character of the leading numeral [/^([\d.]+)/] looks for. *)
Definition numericChar (c : ascii) : bool := isDigit c || bool_decide (c = "."%char).

(** A finite number that is not negative. *)
Definition nonNegative (x : number) : Prop := exists k, x = Fin k /\ 0 <= k.

(** A string stops the scan where its first character is not accepted. *)
Definition stops (p : ascii -> bool) (s : string) : Prop :=
  match s with
  | EmptyString => True
  | String c _ => p c = false
  end.

(** A numeral: digits only, at least one. *)
Definition digitString (s : string) : Prop := s <> "" /\ all_chars isDigit s = true.

(** The integer a numeral denotes. *)
Definition valueOf (s : string) : Z := digitsVal 10 digitVal 0 s.

End TopProvers.

(* ===================================================================== *)
(** * The five-prover leaderboard (the second component)                  *)
(* ===================================================================== *)

Module Leaderboard.
Import Js.

(** A row of the answer; a field that is absent is [VUndefined]. *)
Record Row : Type := {
  prover_addr : value;
  total_cycles : value
}.

Record Entry : Type := {
  addr : string;
  cycles : number
}.

Global Instance Entry_eq_dec : EqDecision Entry.
Proof. solve_decision. Defined.

(** [row.prover_addr || "unknown"], as the property key it is used as. *)
Definition addrOf (row : Row) : string :=
  ToString (or_else (prover_addr row) (VStr "unknown")).

(** [Number(row.total_cycles) || 0] *)
Definition cyclesOf (row : Row) : number :=
  let n := ToNumber (total_cycles row) in
  if truthy_number n then n else zero.

(** The object [totals] is kept as its own properties in creation order.
    Names that every object inherits are read as if they were absent, so
    the model is only meant for rows whose keys avoid them. *)
Definition inheritedNames : list string :=
  [ "__proto__"; "constructor"; "hasOwnProperty"; "isPrototypeOf";
    "propertyIsEnumerable"; "toLocaleString"; "toString"; "valueOf";
    "__defineGetter__"; "__defineSetter__"; "__lookupGetter__";
    "__lookupSetter__" ].

Fixpoint getOwn (k : string) (o : list (string * number)) : option number :=
  match o with
  | [] => None
  | (k', v) :: rest => if bool_decide (k' = k) then Some v else getOwn k rest
  end.

(** [o[k] = v]: an own property keeps its place, a new one goes last. *)
Fixpoint assign (k : string) (v : number) (o : list (string * number))
  : list (string * number) :=
  match o with
  | [] => [(k, v)]
  | (k', v') :: rest =>
      if bool_decide (k' = k) then (k, v) :: rest else (k', v') :: assign k v rest
  end.

(** The body of [rows.forEach(..)]. *)
Definition accumulate (totals : list (string * number)) (row : Row)
  : list (string * number) :=
  let addr := addrOf row in
  let cycles := cyclesOf row in
  let old :=
    match getOwn addr totals with
    | Some t => if truthy_number t then t else zero
    | None => zero
    end in
  assign addr (add old cycles) totals.

(** Stable insertion sort; [after x y] says that [x] has to come after [y].
    With a comparator that is a consistent order every stable sort gives
    this result; otherwise the engine is free, and this is one outcome. *)
Fixpoint insertBy {A : Type} (after : A -> A -> bool) (x : A) (l : list A) : list A :=
  match l with
  | [] => [x]
  | y :: l' => if after x y then y :: insertBy after x l' else x :: l
  end.

Fixpoint sortBy {A : Type} (after : A -> A -> bool) (l : list A) : list A :=
  match l with
  | [] => []
  | x :: l' => insertBy after x (sortBy after l')
  end.

(** A key that is the canonical numeral of an array index. *)
Definition arrayIndex (k : string) : option Z :=
  if all_chars isDigit k then
    let n := digitsVal 10 digitVal 0 k in
    if bool_decide (pretty n = k) && (n <? 2 ^ 32 - 1) then Some n else None
  else None.

(** [Object.entries]: array indices in ascending order, then the other
    keys in creation order. *)
Definition entries (o : list (string * number)) : list (string * number) :=
  sortBy (fun x y => bool_decide (default 0 (arrayIndex y.1) < default 0 (arrayIndex x.1)))
         (filter (fun kv => is_Some (arrayIndex kv.1)) o)
  ++ filter (fun kv => ¬ is_Some (arrayIndex kv.1)) o.

(** The comparator [(a, b) => b.cycles - a.cycles]. *)
Definition comparefn (a b : Entry) : number := sub (cycles b) (cycles a).

(** [Array.prototype.sort] with a comparator: [x] comes after [y] when the
    comparator is positive; zero and NaN leave the order alone. *)
Definition sort (cmp : Entry -> Entry -> number) (l : list Entry) : list Entry :=
  sortBy (fun x y => ltb zero (cmp x y)) l.

(** From the fetched rows to the list that is displayed. *)
Definition top (rows : list Row) : list Entry :=
  let totals := foldl accumulate [] rows in
  take 5
    (sort comparefn
       (map (fun kv => {| addr := kv.1; cycles := kv.2 |}) (entries totals))).

(** The state of the component: the list on display and the two flags. *)
Record State : Type := {
  provers : list Entry;
  loading : bool;
  error : option string
}.

(** What the request can come to: rejected, answered with an error
    status, or answered with JSON whose [rows] and [data] members are
    arrays of objects ([None] where absent). *)
Inductive Answer : Type :=
  | Unreachable
  | NotOk
  | Json (rows data : option (list Row)).

(** One run of [fetchData], from the answer to the state it leaves. *)
Definition fetchData (ans : Answer) (s : State) : State :=
  match ans with
  | Json rows data =>
      let rows :=
        match rows, data with
        | Some rs, _ => rs
        | None, Some ds => ds
        | None, None => []
        end in
      {| provers := top rows; loading := false; error := None |}
  | Unreachable | NotOk =>
      {| provers := provers s; loading := false; error := Some "Failed to fetch" |}
  end.

(** The sum of a group as the design states it: the contributions
    of the rows with that key, added up in row order. *)
Definition groupSum (rows : list Row) (a : string) : number :=
  foldl add zero (map cyclesOf (filter (fun r => addrOf r = a) rows)).

Definition nonIncreasing (l : list Entry) : Prop :=
  forall i j x y, (i < j)%nat -> l !! i = Some x -> l !! j = Some y ->
    geb (cycles x) (cycles y) = true.

(** ** Vocabulary of the properties *)

(** [x || 0] for a number that may be absent. *)
Definition orZero (t : option number) : number :=
  match t with
  | Some x => if truthy_number x then x else zero
  | None => zero
  end.

(** What one row does to the total of the key [a]. *)
Definition bump (a : string) (t : option number) (r : Row) : option number :=
  if decide (addrOf r = a) then Some (add (orZero t) (cyclesOf r)) else t.

(** All groups, best first: the list that [top] cuts to five. *)
Definition ranked (rows : list Row) : list Entry :=
  sort comparefn
    (map (fun kv => {| addr := kv.1; cycles := kv.2 |})
         (entries (foldl accumulate [] rows))).

(** ** Sample data *)

(** A row with the two fields the component reads. *)
Definition row (a c : value) : Row := {| prover_addr := a; total_cycles := c |}.

(** Seven rows in six groups. *)
Definition sampleBoard : list Row :=
  [ row (VStr "0xb1") (VStr "3"); row (VStr "0xa2") (VNum (of_Z 10));
    row VNull (VStr "7"); row (VStr "0xc3") (VStr "1.5");
    row (VStr "0xb1") (VStr "n/a"); row (VStr "0xb1") (VStr "4");
    row (VStr "0xd4") VNull; row (VStr "0xe5") (VStr "100") ].

(** A group that receives both infinities. *)
Definition infiniteRows : list Row :=
  [ row (VStr "0xa2") (VStr "Infinity"); row (VStr "0xa2") (VStr "-Infinity");
    row (VStr "0xb1") (VStr "5") ].

End Leaderboard.

(* ===================================================================== *)
(** * Properties of the snapshot scheduler                                *)
(* ===================================================================== *)

Import Js TopProvers.

Ltac unfold_m :=
  unfold persistSnapshot, readLog, writeLog, post, warn, fireAndForget,
    tryCatch, bind, ret, throw, gets, modify in *.

Ltac unfold_session :=
  unfold dispatch, step, runCallback, fetchData_settle, unlessStopped, setRows,
    pollEffect, pollCleanup, snapshotEffect, snapshotCleanup, fetchData_start,
    clearInterval, setInterval, setTimeout, setTimer, warn, tryCatch,
    bind, ret, throw, gets, modify in *.

Section Window.

Lemma rem2_zero_iff (z : Z) : Z.rem z 2 = 0 <-> z mod 2 = 0.
Proof.
  rewrite Z.rem_divide, Z.mod_divide by lia. reflexivity.
Qed.

Lemma anchor_even (h : Z) : (h - 10 + 24) mod 2 = 0 <-> Z.even h = true.
Proof.
  rewrite Z.even_spec. replace (h - 10 + 24) with (h + 7 * 2) by lia.
  rewrite Z.mod_add by lia. rewrite Z.mod_divide by lia.
  split.
  - intros [k ->]. exists k. lia.
  - intros [k ->]. exists k. lia.
Qed.

(** C2. [isSnapshotWindow] answers true exactly when the hour is aligned
    with the 10:00 anchor modulo 2 and the minute is below 5; that is, at
    minutes 0 to 4 of every even UTC hour, and never in an odd hour or from
    minute 5 on. *)
Theorem isSnapshotWindow_spec (now : Date) :
  let h := getUTCHours now in
  let m := getUTCMinutes now in
  (isSnapshotWindow now = true <-> (h - 10 + 24) mod 2 = 0 /\ m < 5) /\
  (isSnapshotWindow now = true <-> Z.even h = true /\ m < 5) /\
  (Z.even h = true -> 0 <= m <= 4 -> isSnapshotWindow now = true) /\
  (Z.odd h = true -> isSnapshotWindow now = false) /\
  (5 <= m -> isSnapshotWindow now = false).
Proof.
  intros h m.
  assert (Hw : isSnapshotWindow now = true <-> (h - 10 + 24) mod 2 = 0 /\ m < 5).
  { unfold isSnapshotWindow. fold h m.
    rewrite andb_true_iff, Z.eqb_eq, Z.ltb_lt, rem2_zero_iff. reflexivity. }
  assert (He : isSnapshotWindow now = true <-> Z.even h = true /\ m < 5).
  { rewrite Hw, anchor_even. reflexivity. }
  split; [exact Hw|]. split; [exact He|]. split; [|split].
  - intros Hev Hm. apply He. split; [done | lia].
  - intros Hodd. apply not_true_is_false. intros [Ht _]%He.
    rewrite <- Z.negb_even, Ht in Hodd. done.
  - intros Hm. apply not_true_is_false. intros [_ Ht]%He. lia.
Qed.

(** At 12:03 UTC the window is open: the anchor formula gives 26 mod 2 = 0. *)
Lemma isSnapshotWindow_witness :
  isSnapshotWindow
    {| getUTCFullYear := 2025; getUTCMonth := 9; getUTCDate := 29;
       getUTCHours := 12; getUTCMinutes := 3; getUTCSeconds := 0;
       getUTCMilliseconds := 0 |} = true.
Proof.
  apply (isSnapshotWindow_spec
           {| getUTCFullYear := 2025; getUTCMonth := 9; getUTCDate := 29;
              getUTCHours := 12; getUTCMinutes := 3; getUTCSeconds := 0;
              getUTCMilliseconds := 0 |}); simpl; [reflexivity | lia].
Defined.

End Window.

Section BucketKey.

(** *** Strings: lengths and splitting a concatenation *)




(** *** Two-digit fields *)

Local Arguments pad2 : simpl never.

Lemma pad2_table : forallb (fun z => two_digits_of z (pad2 z)) (seqZ 0 100) = true.
Proof. vm_compute. reflexivity. Qed.

Lemma year_table : forallb (fun y => four_digits (showInt y)) (seqZ 1000 9000) = true.
Proof. vm_compute. reflexivity. Qed.

Lemma pad2_two_digits (z : Z) : 0 <= z < 100 -> two_digits_of z (pad2 z) = true.
Proof.
  intros Hz. pose proof pad2_table as H.
  rewrite forallb_forall in H. apply H, list_elem_of_In, elem_of_seqZ. lia.
Qed.



Lemma year_four_digits (y : Z) : 1000 <= y <= 9999 -> four_digits (showInt y) = true.
Proof.
  intros Hy. pose proof year_table as H.
  rewrite forallb_forall in H. apply H, list_elem_of_In, elem_of_seqZ. lia.
Qed.

(** *** The key *)

Lemma snapshotBucketKey_split (now : Date) :
  snapshotBucketKey now = showInt (getUTCFullYear now) +:+ keyTail now.
Proof. reflexivity. Qed.






End BucketKey.

Section Persistence.

Lemma copy_rows (rows : list MetricsRow) :
  map (fun r => {| row_label := row_label r; row_addr := row_addr r;
                   orders_taken := orders_taken r;
                   cycles_proved := cycles_proved r |}) rows = rows.
Proof.
  induction rows as [|[] rows IH]; simpl; [done | by rewrite IH].
Qed.

(** [persistSnapshot] always completes normally, whatever the storage and
    the network do, and touches nothing inside the component. *)
Lemma persistSnapshot_run (env : Env) (snapshot : Snapshot) (w : World) :
  exists w',
    persistSnapshot env snapshot w = (Normal tt, w') /\
    same_inside w w' /\
    handed w' = handed w ++ [snapshot] /\
    storage w' = storedAfter env snapshot (storage w).
Proof.
  unfold storedAfter. unfold_m.
  destruct w as [? ? ? ? ? ? ? ? ? ? ? st ? ? ?]; simpl.
  destruct (storageDenied env), (writeFails env), st,
    (resolveEndpoint env), (postFails env); simpl;
    (eexists; split; [reflexivity |]; unfold same_inside; simpl; done).
Qed.

Lemma maybeSnapshot_skip (rows : list MetricsRow) (now : Date) (env : Env) (w : World) :
  rows = [] \/ isSnapshotWindow now = false \/
    lastBucketRef w = Some (snapshotBucketKey now) ->
  maybeSnapshot rows now env w = (Normal tt, w).
Proof.
  unfold maybeSnapshot. intros H.
  case_bool_decide as Hlen; [done |].
  destruct (isSnapshotWindow now) eqn:Hwin; simpl; [| done].
  unfold bind, gets, ret. case_bool_decide as Hb; [done |].
  destruct H as [-> | [? | ?]]; done.
Qed.

Lemma maybeSnapshot_take (rows : list MetricsRow) (now : Date) (env : Env) (w : World) :
  rows <> [] -> isSnapshotWindow now = true ->
  lastBucketRef w <> Some (snapshotBucketKey now) ->
  maybeSnapshot rows now env w
  = fireAndForget (persistSnapshot env (payloadOf rows now))
      (set_lastBucketRef (Some (snapshotBucketKey now)) w).
Proof.
  intros Hrows Hwin Hb. unfold maybeSnapshot.
  case_bool_decide as Hlen; [by destruct rows |].
  rewrite Hwin. simpl. unfold bind at 1, gets at 1.
  case_bool_decide; [done |].
  unfold bind at 1, modify at 1. rewrite copy_rows. reflexivity.
Qed.

Lemma fireAndForget_normal (m : M unit) (w w' : World) :
  m w = (Normal tt, w') -> fireAndForget m w = (Normal tt, w').
Proof. unfold fireAndForget, tryCatch. by intros ->. Qed.

(** The two outcomes of a tick. *)
Lemma maybeSnapshot_cases (rows : list MetricsRow) (now : Date) (env : Env) (w : World) :
  maybeSnapshot rows now env w = (Normal tt, w) \/
  (rows <> [] /\ isSnapshotWindow now = true /\
   lastBucketRef w <> Some (snapshotBucketKey now) /\
   exists w',
     maybeSnapshot rows now env w = (Normal tt, w') /\
     same_inside (set_lastBucketRef (Some (snapshotBucketKey now)) w) w' /\
     handed w' = handed w ++ [payloadOf rows now] /\
     storage w' = storedAfter env (payloadOf rows now) (storage w)).
Proof.
  destruct (decide (rows = [])) as [-> | Hrows];
    [left; apply maybeSnapshot_skip; auto |].
  destruct (isSnapshotWindow now) eqn:Hwin;
    [| left; apply maybeSnapshot_skip; auto].
  destruct (decide (lastBucketRef w = Some (snapshotBucketKey now))) as [Hb | Hb];
    [left; apply maybeSnapshot_skip; auto |].
  right. repeat (split; [done |]).
  destruct (persistSnapshot_run env (payloadOf rows now)
              (set_lastBucketRef (Some (snapshotBucketKey now)) w))
    as (w' & Hrun & Hin & Hh & Hs).
  exists w'. rewrite maybeSnapshot_take by done.
  split; [by apply fireAndForget_normal |]. done.
Qed.

End Persistence.

Section Scheduler.

Lemma pushCapped_drop (prev : list Snapshot) (snapshot : Snapshot) :
  pushCapped prev snapshot
  = drop (length (prev ++ [snapshot]) - 1000) (prev ++ [snapshot]).
Proof.
  unfold pushCapped. case_bool_decide as H; [done |].
  replace (length (prev ++ [snapshot]) - 1000)%nat with 0%nat by lia. done.
Qed.

(** C4. After an append the log holds at most 1000 snapshots: the most
    recent ones, in their order; the oldest are the ones dropped. Every
    write of [persistSnapshot] stores such a log. *)
Theorem snapshot_log_capped (prev : list Snapshot) (snapshot : Snapshot) :
  let log := pushCapped prev snapshot in
  (length log <= 1000)%nat /\
  length log = Nat.min 1000 (length prev + 1) /\
  (exists oldest,
      prev ++ [snapshot] = oldest ++ log /\
      length oldest = (length prev + 1 - 1000)%nat) /\
  (forall env w,
      storageDenied env = false -> writeFails env = false ->
      storage w = Log prev \/ (storage w = NoItem /\ prev = []) ->
      storage (persistSnapshot env snapshot w).2 = Log log).
Proof.
  intros log.
  assert (Hlog : log = drop (length (prev ++ [snapshot]) - 1000) (prev ++ [snapshot]))
    by apply pushCapped_drop.
  assert (Hall : length (prev ++ [snapshot]) = (length prev + 1)%nat).
  { rewrite length_app. simpl. lia. }
  split; [rewrite Hlog, length_drop; lia |].
  split; [rewrite Hlog, length_drop; lia |].
  split.
  - exists (take (length (prev ++ [snapshot]) - 1000) (prev ++ [snapshot])). split.
    + by rewrite Hlog, take_drop.
    + rewrite length_take. lia.
  - intros env w Hd Hw Hst.
    destruct (persistSnapshot_run env snapshot w) as (w' & -> & _ & _ & Hs).
    simpl. rewrite Hs. unfold storedAfter. rewrite Hd, Hw. simpl.
    destruct Hst as [-> | [-> ->]]; reflexivity.
Qed.

(** Appending to a log of 1000 entries stores the capped log. *)
Lemma snapshot_log_capped_witness :
  storage (persistSnapshot quietEnv (payloadOf sampleRows (at_ 2025 0 1 12 0))
             (set_storage
                (Log (replicate 1000 (payloadOf sampleRows (at_ 2025 0 1 10 0))))
                (initial NoItem))).2
  = Log (pushCapped (replicate 1000 (payloadOf sampleRows (at_ 2025 0 1 10 0)))
           (payloadOf sampleRows (at_ 2025 0 1 12 0))).
Proof.
  apply (snapshot_log_capped
           (replicate 1000 (payloadOf sampleRows (at_ 2025 0 1 10 0)))
           (payloadOf sampleRows (at_ 2025 0 1 12 0))); [done | done |].
  left. reflexivity.
Defined.

Example full_log_drops_oldest :
  length (pushCapped (replicate 1000 (payloadOf sampleRows (at_ 2025 0 1 10 0)))
            (payloadOf sampleRows (at_ 2025 0 1 12 0))) = 1000%nat /\
  last (pushCapped (replicate 1000 (payloadOf sampleRows (at_ 2025 0 1 10 0)))
          (payloadOf sampleRows (at_ 2025 0 1 12 0)))
  = Some (payloadOf sampleRows (at_ 2025 0 1 12 0)).
Proof. vm_compute. done. Qed.

(** C3. On an eligible tick with a new bucket the bucket is remembered
    first and persistence runs in that state; whatever the storage and the
    network do, persistence completes normally, the bucket stays
    remembered, nothing is raised and the timer that fired stays armed. *)
Theorem bucket_remembered_before_persisting
    (rows : list MetricsRow) (now : Date) (env : Env) (w : World) :
  rows <> [] -> isSnapshotWindow now = true ->
  lastBucketRef w <> Some (snapshotBucketKey now) ->
  let remembered := set_lastBucketRef (Some (snapshotBucketKey now)) w in
  exists w',
    maybeSnapshot rows now env w
    = fireAndForget (persistSnapshot env (payloadOf rows now)) remembered /\
    persistSnapshot env (payloadOf rows now) remembered = (Normal tt, w') /\
    maybeSnapshot rows now env w = (Normal tt, w') /\
    lastBucketRef w' = Some (snapshotBucketKey now) /\
    timers w' = timers w /\
    (forall id t,
        armed id w = Some t -> timer_kind t = Interval ->
        timer_cb t = MaybeSnapshot rows ->
        step (Fire id now env) w = (Normal tt, w') /\ armed id w' = Some t).
Proof.
  intros Hrows Hwin Hnew remembered.
  destruct (persistSnapshot_run env (payloadOf rows now) remembered)
    as (w' & Hrun & Hin & _ & _).
  destruct Hin as (_ & _ & _ & Hb & _ & _ & _ & _ & Ht & _).
  exists w'.
  assert (Htick : maybeSnapshot rows now env w = (Normal tt, w')).
  { rewrite maybeSnapshot_take by done. by apply fireAndForget_normal. }
  split; [by apply maybeSnapshot_take |].
  split; [done |]. split; [done |]. split; [done |]. split; [done |].
  intros id t Harmed Hkind Hcb.
  split.
  - unfold step, bind at 1, gets at 1. rewrite Harmed, Hkind.
    unfold bind, ret. simpl. rewrite Hcb. simpl. exact Htick.
  - unfold armed in *. rewrite Ht. exact Harmed.
Qed.

End Scheduler.

Section Session.

(** *** Order of dates and of hours *)






(** *** Sessions in which time goes forward *)

(** *** What each action does to the record of snapshots *)

Lemma dispatch_not_fire (w : World) (a : Action) :
  fireDate a = None -> same_record w (dispatch w a).
Proof.
  intros Ha. destruct w as [? ? ? ? st pt snt ph ? ? n ? ? ? ?].
  destruct a as [| | |resp]; try discriminate;
    unfold_session; unfold same_record; simpl.
  - destruct ph; simpl; done.
  - destruct ph, pt, snt; simpl; done.
  - destruct n; simpl; [done |].
    destruct (fetchTable resp), st, snt; simpl; done.
Qed.

Lemma step_fire (w : World) (id : nat) (now : Date) (env : Env) :
  step (Fire id now env) w
  = match armed id w with
    | Some t => runCallback (timer_cb t) now env (afterFiring id t w)
    | None => (Normal tt, w)
    end.
Proof.
  unfold step, afterFiring, bind, gets, modify, ret.
  destruct (armed id w) as [t|]; [destruct (timer_kind t) |]; reflexivity.
Qed.

(** A timer that fires either leaves the record alone or, on an eligible
    tick with rows and a bucket that is not the remembered one, hands
    exactly one snapshot with that bucket to persistence and remembers it. *)
Lemma dispatch_fire (w : World) (id : nat) (now : Date) (env : Env) :
  let w' := dispatch w (Fire id now env) in
  (lastBucketRef w' = lastBucketRef w /\ handed w' = handed w) \/
  (exists t rows,
      armed id w = Some t /\ timer_cb t = MaybeSnapshot rows /\
      rows <> [] /\ isSnapshotWindow now = true /\
      lastBucketRef w <> Some (snapshotBucketKey now) /\
      lastBucketRef w' = Some (snapshotBucketKey now) /\
      handed w' = handed w ++ [payloadOf rows now] /\
      storage w' = storedAfter env (payloadOf rows now) (storage w)).
Proof.
  intros w'. unfold w', dispatch. rewrite step_fire.
  destruct (armed id w) as [t|] eqn:Harmed; [| left; done].
  assert (Hw1 : lastBucketRef (afterFiring id t w) = lastBucketRef w /\
                handed (afterFiring id t w) = handed w /\
                storage (afterFiring id t w) = storage w).
  { unfold afterFiring. destruct (timer_kind t); done. }
  destruct Hw1 as (Hb1 & Hh1 & Hs1).
  unfold runCallback.
  destruct (timer_cb t) as [|rows] eqn:Hcb.
  - left. unfold fetchData_start, bind, modify. simpl. done.
  - destruct (maybeSnapshot_cases rows now env (afterFiring id t w))
      as [-> | (Hrows & Hwin & Hnew & w2 & -> & Hin & Hh & Hs)].
    + left. done.
    + right. exists t, rows.
      destruct Hin as (_ & _ & _ & Hb & _).
      rewrite Hb1 in Hnew. simpl in Hb.
      repeat (split; [done |]). rewrite Hh, Hs, Hh1, Hs1. done.
Qed.

(** *** One snapshot per bucket *)





Lemma fireDates_cons (a : Action) (acts : list Action) :
  fireDates (a :: acts)
  = match fireDate a with
    | Some d => d :: fireDates acts
    | None => fireDates acts
    end.
Proof. reflexivity. Qed.




End Session.

Section Examples.

(** With the item unreadable, the write refused and the sink unreachable,
    the tick at 12:03 still remembers its bucket and completes. *)
Lemma bucket_remembered_witness :
  exists w',
    maybeSnapshot sampleRows (at_ 2025 0 1 12 3) failingEnv brokenStorageWorld
    = fireAndForget
        (persistSnapshot failingEnv (payloadOf sampleRows (at_ 2025 0 1 12 3)))
        (set_lastBucketRef (Some (snapshotBucketKey (at_ 2025 0 1 12 3)))
           brokenStorageWorld) /\
    persistSnapshot failingEnv (payloadOf sampleRows (at_ 2025 0 1 12 3))
      (set_lastBucketRef (Some (snapshotBucketKey (at_ 2025 0 1 12 3)))
         brokenStorageWorld) = (Normal tt, w') /\
    maybeSnapshot sampleRows (at_ 2025 0 1 12 3) failingEnv brokenStorageWorld
    = (Normal tt, w') /\
    lastBucketRef w' = Some (snapshotBucketKey (at_ 2025 0 1 12 3)) /\
    timers w' = timers brokenStorageWorld /\
    (forall id t,
        armed id brokenStorageWorld = Some t -> timer_kind t = Interval ->
        timer_cb t = MaybeSnapshot sampleRows ->
        step (Fire id (at_ 2025 0 1 12 3) failingEnv) brokenStorageWorld
        = (Normal tt, w') /\ armed id w' = Some t).
Proof.
  apply (bucket_remembered_before_persisting sampleRows (at_ 2025 0 1 12 3)
           failingEnv brokenStorageWorld); [done | reflexivity | done].
Defined.

(** What the failing tick leaves behind: the bucket is remembered, the
    item is as it was, two warnings are on the console. *)
Example failing_tick_outcome :
  let w' := (maybeSnapshot sampleRows (at_ 2025 0 1 12 3) failingEnv
               brokenStorageWorld).2 in
  lastBucketRef w' = Some "2025-01-01T12:00Z" /\
  storage w' = Unparsable /\
  console w' = ["Failed to persist to localStorage";
                "Failed to POST snapshot to backend"].
Proof. vm_compute. done. Qed.


Example sessionTwoHours_buckets :
  map bucket (handed (run sessionTwoHours (initial NoItem)))
  = ["2025-01-01T10:00Z"; "2025-01-01T12:00Z"].
Proof. vm_compute. reflexivity. Qed.

(** If the clock is set back between ticks the time no longer goes
    forward, and the bucket that is remembered is only the last one. *)
Example clock_set_back :
  map bucket (handed (run [ Mount; Settle sampleAnswer;
                            Fire 4 (at_ 2025 0 1 10 0) quietEnv;
                            Fire 4 (at_ 2025 0 1 12 0) quietEnv;
                            Fire 4 (at_ 2025 0 1 10 1) quietEnv ]
                        (initial NoItem)))
  = ["2025-01-01T10:00Z"; "2025-01-01T12:00Z"; "2025-01-01T10:00Z"].
Proof. vm_compute. reflexivity. Qed.

End Examples.

Section BucketKeySpec.




Example day_rollover_keys :
  snapshotBucketKey (at_ 2025 0 1 23 30) = "2025-01-01T23:00Z" /\
  snapshotBucketKey (at_ 2025 0 2 0 30) = "2025-01-02T00:00Z".
Proof. vm_compute. done. Qed.

End BucketKeySpec.

Section Table.

(** *** The normalised table *)

Lemma PROVERS_lowercase : Forall (fun p => toLowerCase (addr p) = addr p) PROVERS.
Proof. repeat constructor. Qed.

Lemma tableFrom_shape (byAddr : gmap string Metrics) :
  map row_label (tableFrom byAddr) = map label PROVERS /\
  map row_addr (tableFrom byAddr) = map addr PROVERS.
Proof. split; reflexivity. Qed.





End Table.

Section Provenance.

(** *** Where the rows of a snapshot come from *)

Lemma elem_of_disarm (id : nat) (t : Timer) (ts : list Timer) :
  t ∈ disarm id ts -> t ∈ ts.
Proof. unfold disarm. rewrite list_elem_of_filter. tauto. Qed.

Lemma armed_elem_of (id : nat) (w : World) (t : Timer) :
  armed id w = Some t -> t ∈ timers w.
Proof.
  unfold armed. destruct (list_find _ _) as [[i t']|] eqn:Hfind; [| done].
  simpl. intros [= <-]. apply list_find_Some in Hfind as (Hi & _).
  by apply list_elem_of_lookup_2 in Hi.
Qed.





End Provenance.

Section Teardown.

(** A property that every action preserves holds throughout a session. *)
Lemma run_invariant (P : World -> Prop) :
  (forall w a, P w -> P (dispatch w a)) ->
  forall acts w, P w -> P (run acts w).
Proof.
  intros Hstep acts. induction acts as [|a acts IH]; intros w Hw; [done |].
  simpl. apply IH, Hstep, Hw.
Qed.

(** *** What unmounting cancels *)

Lemma elem_of_disarm_ne (id : nat) (t : Timer) (ts : list Timer) :
  t ∈ disarm id ts -> timer_id t <> id.
Proof. unfold disarm. rewrite list_elem_of_filter. tauto. Qed.

Lemma intervals_known_dispatch (w : World) (a : Action) :
  intervals_known w -> intervals_known (dispatch w a).
Proof.
  intros Hinv. destruct a as [| |id now env|resp].
  - destruct w as [rs ? ? ? st pt snt ph ts nx n ? ? ? ?]; simpl in *.
    unfold_session; unfold intervals_known in *; simpl in *.
    destruct ph; simpl in *; try done.
    destruct Hinv as [-> _]. simpl.
    intros t. rewrite !elem_of_cons, elem_of_nil.
    intros [-> | [-> | [-> | []]]]; simpl; auto. done.
  - destruct w as [rs ? ? ? st pt snt ph ts nx n ? ? ? ?]; simpl in *.
    unfold_session; unfold intervals_known in *; simpl in *.
    destruct ph; simpl in *; try done.
    destruct pt as [p|], snt as [q|]; simpl; (split; [done |]); intros t Ht;
      destruct (timer_kind t) eqn:Hk; try done; exfalso.
    + pose proof (elem_of_disarm_ne _ _ _ Ht) as Hq.
      apply elem_of_disarm in Ht.
      pose proof (elem_of_disarm_ne _ _ _ Ht) as Hp.
      apply elem_of_disarm in Ht.
      destruct (Hinv t Ht Hk) as [[= ->] | [= ->]]; done.
    + pose proof (elem_of_disarm_ne _ _ _ Ht) as Hp.
      apply elem_of_disarm in Ht.
      destruct (Hinv t Ht Hk) as [[= ->] | [=]]; done.
    + pose proof (elem_of_disarm_ne _ _ _ Ht) as Hq.
      apply elem_of_disarm in Ht.
      destruct (Hinv t Ht Hk) as [[=] | [= ->]]; done.
    + destruct (Hinv t Ht Hk) as [[=] | [=]].
  - unfold dispatch. rewrite step_fire.
    destruct (armed id w) as [t|] eqn:Harmed; [| done].
    assert (Hw1 : intervals_known (afterFiring id t w)).
    { unfold afterFiring. destruct (timer_kind t); [done |].
      unfold intervals_known in *. simpl.
      destruct (phase w); simpl in *.
      - destruct Hinv as [-> ?]. done.
      - intros t' Ht'%elem_of_disarm. auto.
      - destruct Hinv as [? Hinv]. split; [done |].
        intros t' Ht'%elem_of_disarm. auto. }
    unfold runCallback. destruct (timer_cb t) as [|rs].
    + unfold fetchData_start, bind, modify. simpl.
      assert (Hph : phase (afterFiring id t w) <> Fresh).
      { unfold afterFiring. intros Hph.
        assert (Hfresh : phase w = Fresh) by (destruct (timer_kind t); done).
        apply armed_elem_of in Harmed. unfold intervals_known in Hinv.
        rewrite Hfresh in Hinv. destruct Hinv as [Hnil _].
        rewrite Hnil in Harmed. by apply elem_of_nil in Harmed. }
      unfold intervals_known in *. simpl.
      destruct (phase (afterFiring id t w)); done.
    + destruct (maybeSnapshot_cases rs now env (afterFiring id t w))
        as [-> | (_ & _ & _ & w2 & -> & Hin & _)]; [done |].
      destruct Hin as (_ & _ & _ & _ & Hst & Hpt & Hsnt & Hph & Ht & _ & Hfl).
      simpl in *. unfold intervals_known in *.
      rewrite Hph, Ht, ?Hst, ?Hpt, ?Hsnt, ?Hfl. done.
  - destruct w as [rs ? ? ? st pt snt ph ts nx n ? ? ? ?]; simpl in *.
    unfold_session; unfold intervals_known in *; simpl in *.
    destruct n; simpl; [done |].
    destruct ph; simpl in *; [by destruct Hinv | |].
    2: { destruct Hinv as [-> Hinv]. destruct (fetchTable resp); simpl; done. }
    destruct (fetchTable resp) as [e|table]; simpl.
    + destruct st; simpl; done.
    + destruct st; simpl; [done |].
      * destruct snt as [q|]; simpl; intros t;
          rewrite !elem_of_app, !list_elem_of_singleton;
          (intros [[Ht | ->] | ->]; simpl; [| by right | done]); intros Hk.
        -- pose proof (elem_of_disarm_ne _ _ _ Ht) as Hq.
           apply elem_of_disarm in Ht.
           destruct (Hinv t Ht Hk) as [? | [= ->]]; [by left | done].
        -- destruct (Hinv t Ht Hk) as [? | [=]]. by left.
Qed.

(** Both intervals are cancelled by the cleanups: after unmounting no
    interval is armed, and the poll has been told to stop. *)
Lemma unmount_cancels_intervals (st : Stored) (acts : list Action) :
  let w := run acts (initial st) in
  phase w = Unmounted ->
  stop w = true /\ forall t, t ∈ timers w -> timer_kind t = Timeout.
Proof.
  intros w Hph.
  assert (Hinv : intervals_known w).
  { apply run_invariant; [apply intervals_known_dispatch | done]. }
  unfold intervals_known in Hinv. by rewrite Hph in Hinv.
Qed.

End Teardown.

Section NoRows.

Lemma fetchTable_not_empty (resp : Response) (table : list MetricsRow) :
  fetchTable resp = inr table -> table <> [].
Proof.
  destruct resp as [| | |rs ds]; simpl; try done.
  destruct (entriesOf _); [done |]. by intros [= <-].
Qed.

Lemma no_rows_captured_dispatch (w : World) (a : Action) :
  no_rows_captured w -> no_rows_captured (dispatch w a).
Proof.
  intros Hinv. destruct a as [| |id now env|resp].
  - destruct w as [rs ? ? ? st pt snt ph ts nx n ? ? ? ?]; simpl in *.
    unfold_session; unfold no_rows_captured in *; simpl in *.
    destruct ph; simpl; try done.
    intros -> t rs'. rewrite !elem_of_app, !list_elem_of_singleton.
    intros [[[Ht | ->] | ->] | ->]; simpl; try done; [eauto | |]; by intros [= <-].
  - destruct w as [rs ? ? ? st pt snt ph ts nx n ? ? ? ?]; simpl in *.
    unfold_session; unfold no_rows_captured in *; simpl in *.
    destruct ph, pt, snt; simpl; try done;
      (intros Hrs t rs' Ht; repeat apply elem_of_disarm in Ht; eauto).
  - unfold dispatch. rewrite step_fire.
    destruct (armed id w) as [t|] eqn:Harmed; [| done].
    assert (Hw1 : no_rows_captured (afterFiring id t w)).
    { unfold afterFiring. destruct (timer_kind t); [done |].
      unfold no_rows_captured in *. simpl.
      intros Hrs t' rs' Ht'%elem_of_disarm. eauto. }
    unfold runCallback. destruct (timer_cb t) as [|rs].
    + unfold fetchData_start, bind, modify. simpl. done.
    + destruct (maybeSnapshot_cases rs now env (afterFiring id t w))
        as [-> | (_ & _ & _ & w2 & -> & Hin & _)]; [done |].
      destruct Hin as (Hr & _ & _ & _ & _ & _ & _ & _ & Ht & _).
      simpl in *. unfold no_rows_captured in *. rewrite Hr, Ht. done.
  - destruct w as [rs ? ? ? st pt snt ph ts nx n ? ? ? ?]; simpl in *.
    unfold_session; unfold no_rows_captured in *; simpl in *.
    destruct n; simpl; [done |].
    destruct (fetchTable resp) as [e|table] eqn:Hresp; simpl.
    + destruct st; simpl; done.
    + destruct st; simpl; [done |].
      apply fetchTable_not_empty in Hresp. destruct snt; simpl; done.
Qed.

(** C8. A tick that finds no rows does nothing: the world, and with it the
    remembered bucket, the stored log and the requests sent, is unchanged.
    In a session whose state holds no rows, no timer that fires constructs
    or persists a snapshot or changes the remembered bucket. *)
Theorem maybeSnapshot_no_rows :
  (forall now env w, maybeSnapshot [] now env w = (Normal tt, w)) /\
  (forall st acts id now env,
      rows (run acts (initial st)) = [] ->
      same_record (run acts (initial st))
        (dispatch (run acts (initial st)) (Fire id now env))).
Proof.
  split.
  - intros now env w. apply maybeSnapshot_skip. by left.
  - intros st acts id now env Hrows.
    assert (Hinv : no_rows_captured (run acts (initial st))).
    { apply run_invariant; [apply no_rows_captured_dispatch |].
      intros _ t rs Ht. by apply elem_of_nil in Ht. }
    set (w := run acts (initial st)) in *.
    unfold dispatch. rewrite step_fire.
    destruct (armed id w) as [t|] eqn:Harmed; [| done].
    assert (Hsame : same_record w (afterFiring id t w)).
    { unfold afterFiring. destruct (timer_kind t); done. }
    unfold runCallback. destruct (timer_cb t) as [|rs] eqn:Hcb.
    + unfold fetchData_start, bind, modify. simpl. exact Hsame.
    + rewrite (Hinv Hrows t rs) by (by apply (armed_elem_of id) || done).
      rewrite maybeSnapshot_skip by (by left). exact Hsame.
Qed.

(** Right after mounting, the timeout fires at an eligible time: nothing. *)
Lemma maybeSnapshot_no_rows_witness :
  same_record (run [Mount] (initial NoItem))
    (dispatch (run [Mount] (initial NoItem)) (Fire 3 (at_ 2025 0 1 10 0) quietEnv)).
Proof.
  apply (proj2 maybeSnapshot_no_rows NoItem [Mount] 3%nat (at_ 2025 0 1 10 0) quietEnv).
  reflexivity.
Defined.

End NoRows.

Section Divergences.

(** C6. The cleanup of the snapshot effect clears the interval only. The
    timeout armed next to it survives the teardown: unmounting right after
    mounting leaves it armed, and a timeout armed when the rows changed
    fires after the teardown and persists a snapshot. *)
Theorem timeout_survives_unmount :
  (forall st,
      timers (run [Mount; Unmount] (initial st))
      = [ {| timer_id := 3; timer_kind := Timeout; timer_delay := 500;
             timer_cb := MaybeSnapshot [] |} ]) /\
  (let w := run [Mount; Settle sampleAnswer; Unmount] (initial NoItem) in
   phase w = Unmounted /\
   armed 5 w = Some {| timer_id := 5; timer_kind := Timeout; timer_delay := 500;
                       timer_cb := MaybeSnapshot sampleTable |} /\
   handed w = [] /\
   handed (dispatch w (Fire 5 (at_ 2025 0 1 10 0) quietEnv))
   = [payloadOf sampleTable (at_ 2025 0 1 10 0)] /\
   storage (dispatch w (Fire 5 (at_ 2025 0 1 10 0) quietEnv))
   = Log [payloadOf sampleTable (at_ 2025 0 1 10 0)]).
Proof.
  split; [intros st; reflexivity |].
  vm_compute. repeat split; reflexivity.
Qed.

(** C7. [parseCycles] turns a malformed [cycles_proved] into zero, but
    [Number(r.orders_taken || 0)] turns a malformed [orders_taken] into
    NaN, and the table carries it. *)
Theorem orders_taken_malformed :
  parseCycles (api_cycles_proved malformedOrders) = zero /\
  ToNumber (or_else (api_orders_taken malformedOrders) (VNum zero)) = NaN /\
  fetchTable (Body (Some [malformedOrders]) None)
  = inr [ {| row_label := "Prover 1";
             row_addr := "0x6220892679110898abd78847d6f0a639e3408dc7";
             orders_taken := NaN; cycles_proved := zero |};
          {| row_label := "Prover 2";
             row_addr := "0x34a2df023b535c1bd79a791b259adea947f603e3";
             orders_taken := zero; cycles_proved := zero |};
          {| row_label := "Prover 3";
             row_addr := "0x11973257c9210d852084f7b97f672080c1dbbb53";
             orders_taken := zero; cycles_proved := zero |} ].
Proof. vm_compute. repeat split; reflexivity. Qed.

(** *** [parseCycles] on its own *)

(** Whatever the value, the result is a finite number. *)
Lemma parseCycles_finite (v : value) : isFinite (parseCycles v) = true.
Proof.
  unfold parseCycles. destruct v; try reflexivity;
    (destruct (leadingNumeric _); [| reflexivity];
     destruct (isFinite (parseFloat _)) eqn:Hf; [exact Hf | reflexivity]).
Qed.

Example parseCycles_unit_suffix : parseCycles (VStr "12.5K") = dyadic 25 (-1).
Proof. vm_compute. reflexivity. Qed.

Example parseCycles_zero_cases :
  parseCycles VNull = zero /\ parseCycles VUndefined = zero /\
  parseCycles (VStr "n/a") = zero /\ parseCycles (VStr "-3") = zero /\
  parseCycles (VStr ".") = zero /\ parseCycles (VNum NaN) = zero /\
  parseCycles (VNum PosInf) = zero /\ parseCycles (VStr "Infinity") = zero /\
  parseCycles (VStr (String.concat "" (replicate 400 "9"))) = zero.
Proof. vm_compute. repeat split; reflexivity. Qed.

Example orders_taken_well_formed :
  ToNumber (or_else (VStr "42") (VNum zero)) = of_Z 42 /\
  ToNumber (or_else VNull (VNum zero)) = zero /\
  ToNumber (or_else VUndefined (VNum zero)) = zero /\
  ToNumber (or_else (VStr "") (VNum zero)) = zero /\
  ToNumber (or_else (VStr "12.5K") (VNum zero)) = NaN.
Proof. vm_compute. repeat split; reflexivity. Qed.

End Divergences.

Section ProvenanceExample.


End ProvenanceExample.

Section PersistenceEffects.

(** *** What [persistSnapshot] does outside the component *)

(** The whole effect of a call on the stored item, the console and the
    network. *)
Lemma persistSnapshot_outside (env : Env) (snapshot : Snapshot) (w : World) :
  let w' := (persistSnapshot env snapshot w).2 in
  storage w'
  = (if localFails env (storage w) then storage w
     else Log (pushCapped (logOf (storage w)) snapshot)) /\
  console w'
  = console w
    ++ (if localFails env (storage w) then ["Failed to persist to localStorage"] else [])
    ++ (match resolveEndpoint env with
        | Some _ => if postFails env then ["Failed to POST snapshot to backend"] else []
        | None => []
        end) /\
  posted w' = posted w ++ postsOf env snapshot.
Proof.
  unfold postsOf, localFails. unfold_m.
  destruct w as [? ? ? ? ? ? ? ? ? ? ? st co po ?]; simpl.
  destruct (storageDenied env), (writeFails env), st,
    (resolveEndpoint env), (postFails env); simpl;
    rewrite ?app_nil_r, <- ?app_assoc; done.
Qed.

(** X1. Whether a snapshot is sent to the sink does not depend on the
    storage: exactly one POST, with the snapshot as its body, goes to the
    configured endpoint, and none when no endpoint is configured. The Vite
    variable, when set and not empty, is preferred to [window.ENV]. *)
Theorem persistSnapshot_posts (env : Env) (snapshot : Snapshot) (w : World) :
  posted (persistSnapshot env snapshot w).2 = posted w ++ postsOf env snapshot /\
  (forall url, viteEndpoint env = Some url -> url <> "" ->
     postsOf env snapshot = [(url, snapshot)]) /\
  (forall url, viteEndpoint env = None \/ viteEndpoint env = Some "" ->
     windowEndpoint env = Some url -> url <> "" ->
     postsOf env snapshot = [(url, snapshot)]) /\
  ((viteEndpoint env = None \/ viteEndpoint env = Some "") ->
   (windowEndpoint env = None \/ windowEndpoint env = Some "") ->
   postsOf env snapshot = []).
Proof.
  split; [by destruct (persistSnapshot_outside env snapshot w) as (_ & _ & Hp) |].
  unfold postsOf, resolveEndpoint. split; [| split].
  - intros url -> Hne. rewrite bool_decide_eq_false_2 by done.
    destruct (windowEndpoint env) as [u|]; [destruct (bool_decide (u = "")) |];
      reflexivity.
  - intros url Hv -> Hne. rewrite (bool_decide_eq_false_2 (url = "")) by done.
    destruct Hv as [-> | ->]; reflexivity.
  - intros [-> | ->] [-> | ->]; reflexivity.
Qed.

(** With the storage denied and both sinks configured, the snapshot goes
    to the Vite one. *)
Lemma persistSnapshot_posts_witness :
  postsOf bothSinksEnv (payloadOf sampleRows (at_ 2025 0 1 10 0))
  = [("https://vite.example/in", payloadOf sampleRows (at_ 2025 0 1 10 0))].
Proof.
  apply (proj1 (proj2 (persistSnapshot_posts bothSinksEnv
                         (payloadOf sampleRows (at_ 2025 0 1 10 0)) (initial NoItem))));
    [reflexivity | discriminate].
Defined.

(** X2. Each failure is reported by one warning and nothing else is
    written to the console: one warning when the log cannot be read or
    written, one when the POST fails. When local persistence fails the
    stored item is left exactly as it was. *)
Theorem persistSnapshot_reports (env : Env) (snapshot : Snapshot) (w : World) :
  console (persistSnapshot env snapshot w).2
  = console w
    ++ (if localFails env (storage w) then ["Failed to persist to localStorage"] else [])
    ++ (match resolveEndpoint env with
        | Some _ => if postFails env then ["Failed to POST snapshot to backend"] else []
        | None => []
        end) /\
  (localFails env (storage w) = true ->
   storage (persistSnapshot env snapshot w).2 = storage w) /\
  (localFails env (storage w) = false ->
   storage (persistSnapshot env snapshot w).2
   = Log (pushCapped (logOf (storage w)) snapshot)).
Proof.
  destruct (persistSnapshot_outside env snapshot w) as (Hs & Hc & _).
  split; [exact Hc |]. split; intros Hf; rewrite Hf in Hs; exact Hs.
Qed.

Lemma persistSnapshot_reports_witness :
  storage (persistSnapshot failingEnv (payloadOf sampleRows (at_ 2025 0 1 10 0))
             (initial NoItem)).2 = storage (initial NoItem).
Proof.
  apply (proj1 (proj2 (persistSnapshot_reports failingEnv
                         (payloadOf sampleRows (at_ 2025 0 1 10 0)) (initial NoItem)))).
  reflexivity.
Defined.

(** *** Appending many snapshots *)

(** X3. Appending one snapshot after the other keeps the most recent 1000
    of all of them: the capped appends compose into one cut at the end. *)
Theorem pushCapped_many (prev snaps : list Snapshot) :
  snaps <> [] ->
  foldl pushCapped prev snaps
  = drop (length (prev ++ snaps) - 1000) (prev ++ snaps).
Proof.
  induction snaps as [|s snaps IH] using rev_ind; [done |]. intros _.
  rewrite foldl_snoc.
  destruct (decide (snaps = [])) as [-> | Hne].
  { simpl. apply pushCapped_drop. }
  rewrite IH by done. rewrite pushCapped_drop.
  set (L := prev ++ snaps). rewrite (app_assoc prev snaps [s]). fold L.
  rewrite !length_app, length_drop. simpl.
  destruct (decide (length L <= 1000)%nat) as [Hle | Hgt].
  - replace (length L - 1000)%nat with 0%nat by lia. simpl.
    f_equal. lia.
  - rewrite <- drop_app_le by lia. rewrite drop_drop. f_equal. lia.
Qed.

Lemma pushCapped_many_witness :
  foldl pushCapped (replicate 999 (payloadOf sampleRows (at_ 2025 0 1 8 0)))
    [payloadOf sampleRows (at_ 2025 0 1 10 0); payloadOf sampleRows (at_ 2025 0 1 12 0)]
  = drop (length (replicate 999 (payloadOf sampleRows (at_ 2025 0 1 8 0))
                  ++ [payloadOf sampleRows (at_ 2025 0 1 10 0);
                      payloadOf sampleRows (at_ 2025 0 1 12 0)]) - 1000)
      (replicate 999 (payloadOf sampleRows (at_ 2025 0 1 8 0))
       ++ [payloadOf sampleRows (at_ 2025 0 1 10 0);
           payloadOf sampleRows (at_ 2025 0 1 12 0)]).
Proof.
  apply (pushCapped_many (replicate 999 (payloadOf sampleRows (at_ 2025 0 1 8 0)))
           [payloadOf sampleRows (at_ 2025 0 1 10 0);
            payloadOf sampleRows (at_ 2025 0 1 12 0)]).
  discriminate.
Defined.

End PersistenceEffects.

Section StoredLog.

(** *** The stored log over a session *)

(** A timer that fires leaves the stored item alone or has it rewritten by
    one call of [persistSnapshot]. *)
Lemma dispatch_fire_storage (w : World) (id : nat) (now : Date) (env : Env) :
  (handed (dispatch w (Fire id now env)) = handed w /\
   storage (dispatch w (Fire id now env)) = storage w) \/
  (exists rows,
      handed (dispatch w (Fire id now env)) = handed w ++ [payloadOf rows now] /\
      storage (dispatch w (Fire id now env))
      = storedAfter env (payloadOf rows now) (storage w)).
Proof.
  unfold dispatch. rewrite step_fire.
  destruct (armed id w) as [t|] eqn:Harmed; [| left; done].
  assert (Hw1 : handed (afterFiring id t w) = handed w /\
                storage (afterFiring id t w) = storage w).
  { unfold afterFiring. destruct (timer_kind t); done. }
  destruct Hw1 as (Hh1 & Hs1).
  unfold runCallback. destruct (timer_cb t) as [|rows].
  - left. unfold fetchData_start, bind, modify. simpl. done.
  - destruct (maybeSnapshot_cases rows now env (afterFiring id t w))
      as [-> | (_ & _ & _ & w2 & -> & _ & Hh & Hs)].
    + left. done.
    + right. exists rows. rewrite Hh, Hs, Hh1, Hs1. done.
Qed.

Lemma storedAfter_localFails (env : Env) (snapshot : Snapshot) (st : Stored) :
  storedAfter env snapshot st
  = if localFails env st then st else Log (pushCapped (logOf st) snapshot).
Proof.
  unfold storedAfter, localFails.
  destruct (storageDenied env), (writeFails env), st; reflexivity.
Qed.

(** X4. An item that is not a log is never repaired: if the stored item
    is not JSON, or not an array, at the start of a session, it is the
    same at every later moment of the session, whatever happens. *)
Theorem broken_item_stays (st : Stored) (acts : list Action) :
  st = Unparsable \/ st = NotArray ->
  storage (run acts (initial st)) = st.
Proof.
  intros Hst. apply (run_invariant (fun w => storage w = st)); [| done].
  intros w a Hw. destruct (fireDate a) eqn:Hfire.
  - destruct a as [| |id now env|]; try discriminate.
    destruct (dispatch_fire_storage w id now env) as [[_ ->] | (rows & _ & ->)];
      [done |].
    rewrite storedAfter_localFails, Hw. unfold localFails.
    destruct Hst as [-> | ->]; by rewrite orb_true_r.
  - destruct (dispatch_not_fire w a Hfire) as (_ & _ & -> & _). done.
Qed.

Lemma broken_item_stays_witness :
  storage (run sessionTwoHours (initial Unparsable)) = Unparsable.
Proof. apply (broken_item_stays Unparsable sessionTwoHours). by left. Defined.

(** X5. With a storage that works and an item that is absent or a log,
    the stored log at any moment of a session is the log found at the
    start with the session's snapshots appended one by one, each append
    capped; the item is untouched as long as no snapshot was taken. *)
Theorem stored_log_follows_history (st : Stored) (acts : list Action) :
  st = NoItem \/ (exists l, st = Log l) ->
  Forall healthy (fireEnvs acts) ->
  storage (run acts (initial st))
  = match handed (run acts (initial st)) with
    | [] => st
    | _ => Log (foldl pushCapped (logOf st) (handed (run acts (initial st))))
    end.
Proof.
  intros Hst. revert acts.
  assert (Hgen : forall acts w,
    storage w = match handed w with
                | [] => st
                | _ => Log (foldl pushCapped (logOf st) (handed w))
                end ->
    Forall healthy (fireEnvs acts) ->
    storage (run acts w)
    = match handed (run acts w) with
      | [] => st
      | _ => Log (foldl pushCapped (logOf st) (handed (run acts w)))
      end).
  { induction acts as [|a acts IH]; intros w Hw Hh; [done |].
    simpl. apply IH.
    - destruct (fireDate a) eqn:Hfire.
      + destruct a as [| |id now env|]; try discriminate.
        apply Forall_cons in Hh as [[Hd Hwr] _].
        destruct (dispatch_fire_storage w id now env)
          as [[-> ->] | (rows & -> & ->)]; [done |].
        rewrite storedAfter_localFails, foldl_snoc. unfold localFails.
        rewrite Hd, Hwr, Hw. simpl.
        destruct (handed w) as [|s0 hs] eqn:Hhs; simpl.
        * destruct Hst as [-> | [l ->]]; reflexivity.
        * reflexivity.
      + destruct (dispatch_not_fire w a Hfire) as (_ & -> & -> & _). done.
    - destruct a; try done. by apply Forall_cons in Hh as [_ ?]. }
  intros acts. apply Hgen. reflexivity.
Qed.

Lemma stored_log_follows_history_witness :
  storage (run sessionTwoHours (initial NoItem))
  = match handed (run sessionTwoHours (initial NoItem)) with
    | [] => NoItem
    | _ => Log (foldl pushCapped (logOf NoItem)
                  (handed (run sessionTwoHours (initial NoItem))))
    end.
Proof.
  apply (stored_log_follows_history NoItem sessionTwoHours).
  - by left.
  - repeat constructor.
Defined.

End StoredLog.

Section Normalisation.

(** *** From the fetched rows to the table *)

Lemma entryOf_metricsOf (r : ApiRow) (k : string) :
  addrKey r = inr k -> entryOf r = inr (k, metricsOf r).
Proof. unfold entryOf. by intros ->. Qed.

Lemma fromEntries_acc_lookup (es : list (string * Metrics)) (m : gmap string Metrics)
    (k : string) :
  foldl (fun m kv => <[kv.1 := kv.2]> m) m es !! k
  = match last (filter (fun kv => kv.1 = k) es) with
    | Some kv => Some kv.2
    | None => m !! k
    end.
Proof.
  revert m. induction es as [|[k' v] es IH]; intros m; simpl; [done |].
  rewrite IH, filter_cons. simpl.
  destruct (decide (k' = k)) as [-> | Hne].
  - rewrite last_cons. destruct (last (filter _ es)); [done |].
    simpl. by rewrite lookup_insert_eq.
  - destruct (last (filter _ es)); [done |]. by rewrite lookup_insert_ne.
Qed.

Lemma entriesOf_lastFor (data : list ApiRow) (es : list (string * Metrics)) (k : string) :
  entriesOf data = inr es ->
  last (filter (fun kv => kv.1 = k) es) = (fun r => (k, metricsOf r)) <$> lastFor k data.
Proof.
  unfold lastFor. revert es. induction data as [|r data IH]; intros es Hes; simpl in *.
  { by simplify_eq. }
  destruct (addrKey r) as [e|k'] eqn:Hr; [by unfold entryOf in Hes; rewrite Hr in Hes |].
  rewrite (entryOf_metricsOf r k' Hr) in Hes.
  destruct (entriesOf data) as [e|es'] eqn:Hdata; [done |]. simplify_eq.
  rewrite !filter_cons. simpl. rewrite Hr.
  destruct (decide (k' = k)) as [-> | Hne].
  - rewrite decide_True by done. rewrite !last_cons, (IH es' eq_refl).
    by destruct (last (filter _ data)).
  - rewrite decide_False by congruence. by apply IH.
Qed.

Lemma entriesOf_ok (data : list ApiRow) :
  (forall r, r ∈ data -> exists k, addrKey r = inr k) ->
  exists es, entriesOf data = inr es.
Proof.
  induction data as [|r data IH]; intros Hok; simpl; [by eexists |].
  destruct (Hok r) as [k Hk]; [left |].
  rewrite (entryOf_metricsOf r k Hk).
  destruct IH as [es ->]; [intros r' Hr'; apply Hok; by right |]. by eexists.
Qed.

Lemma entriesOf_fails (data : list ApiRow) (e : Exn) :
  entriesOf data = inl e -> exists r, r ∈ data /\ addrKey r = inl e.
Proof.
  induction data as [|r data IH]; simpl; [done |].
  destruct (addrKey r) as [e'|k] eqn:Hr.
  - unfold entryOf. rewrite Hr. intros [= <-]. exists r. split; [left | done].
  - rewrite (entryOf_metricsOf r k Hr).
    destruct (entriesOf data) as [e'|es]; [| done].
    intros [= <-]. destruct (IH eq_refl) as (r' & Hr' & He).
    exists r'. split; [by right | done].
Qed.

Lemma addrKey_fails (r : ApiRow) (e : Exn) :
  addrKey r = inl e <-> e = TypeError /\ badAddr r.
Proof.
  unfold addrKey, badAddr, or_else.
  destruct (api_prover_addr r) as [| |[]|n|s]; simpl;
    try (split; [done | intros [_ [? ?]]; done]).
  - split; [intros [= <-]; done | intros [-> _]; done].
  - destruct (truthy_number n); simpl.
    + split; [intros [= <-]; done | intros [-> _]; done].
    + split; [done | intros [_ [? ?]]; done].
  - case_bool_decide; simpl; split; try done; intros [_ [_ Hs]]; by destruct (Hs s).
Qed.

Lemma entriesOf_bad (data : list ApiRow) (r : ApiRow) :
  r ∈ data -> badAddr r -> entriesOf data = inl TypeError.
Proof.
  intros Hr Hbad.
  assert (Hkey : addrKey r = inl TypeError) by (by apply addrKey_fails).
  induction data as [|r0 data IH]; [by apply elem_of_nil in Hr |]. simpl.
  destruct (addrKey r0) as [e|k] eqn:Hk.
  - unfold entryOf. rewrite Hk. by apply addrKey_fails in Hk as [-> _].
  - rewrite (entryOf_metricsOf r0 k Hk).
    apply elem_of_cons in Hr as [-> | Hr]; [congruence |].
    by rewrite (IH Hr).
Qed.

(** X6. The table is determined row by row: each of the three provers
    gets the numbers of the last fetched row whose address, compared
    without regard to case, is the prover's, and zeros when there is no
    such row; rows for other addresses change nothing. This holds whenever
    no row has an address that is truthy and not a string; with such a row
    the whole answer is rejected with a TypeError. *)
Theorem fetchTable_last_row_wins (rows data : option (list ApiRow)) :
  ((forall r, r ∈ dataOf rows data -> ~ badAddr r) ->
   fetchTable (Body rows data) = inr (map (rowFor (dataOf rows data)) PROVERS)) /\
  ((exists r, r ∈ dataOf rows data /\ badAddr r) ->
   fetchTable (Body rows data) = inl TypeError).
Proof.
  split.
  - intros Hok.
    destruct (entriesOf_ok (dataOf rows data)) as [es Hes].
    { intros r Hr. destruct (addrKey r) as [e|k] eqn:Hk; [| by eexists].
      apply addrKey_fails in Hk as [_ Hbad]. by destruct (Hok r). }
    unfold fetchTable. rewrite Hes. f_equal. unfold tableFrom.
    apply map_ext_in. intros p Hp.
    assert (Hlow : toLowerCase (addr p) = addr p).
    { pose proof PROVERS_lowercase as H. rewrite Forall_forall in H.
      by apply H, list_elem_of_In. }
    unfold rowFor, fromEntries.
    rewrite Hlow, fromEntries_acc_lookup, (entriesOf_lastFor _ _ _ Hes), lookup_empty.
    by destruct (lastFor (addr p) (dataOf rows data)).
  - intros (r & Hr & Hbad). unfold fetchTable.
    by rewrite (entriesOf_bad _ r Hr Hbad).
Qed.

End Normalisation.

Section NormalisationMore.

(** With two rows for the first prover, the later one, in upper case, is
    the one that counts. *)
Lemma fetchTable_last_row_wins_witness :
  fetchTable (Body (Some duplicateRows) None)
  = inr (map (rowFor (dataOf (Some duplicateRows) None)) PROVERS).
Proof.
  apply (proj1 (fetchTable_last_row_wins (Some duplicateRows) None)).
  intros r Hr [_ Hs]. simpl in Hr.
  repeat (apply elem_of_cons in Hr as [-> | Hr]; [by eapply Hs |]).
  by apply elem_of_nil in Hr.
Defined.

Example duplicateRows_table :
  map (fun r => (orders_taken r, cycles_proved r)) (map (rowFor duplicateRows) PROVERS)
  = [(of_Z 2, of_Z 20); (zero, zero); (zero, zero)].
Proof. vm_compute. reflexivity. Qed.

Lemma lowerChar_idem (c : ascii) : lowerChar (lowerChar c) = lowerChar c.
Proof. destruct c as [[] [] [] [] [] [] [] []]; reflexivity. Qed.

Lemma toLowerCase_idem (s : string) : toLowerCase (toLowerCase s) = toLowerCase s.
Proof.
  induction s as [|c s IH]; simpl; [done |]. by rewrite lowerChar_idem, IH.
Qed.

Lemma toLowerCase_empty (s : string) : toLowerCase s = "" <-> s = "".
Proof. destruct s; simpl; split; done. Qed.

Lemma addrKey_lowerAddr (r : ApiRow) : addrKey (lowerAddr r) = addrKey r.
Proof.
  unfold addrKey, lowerAddr, or_else. simpl.
  destruct (api_prover_addr r) as [| |b|n|s]; simpl; try done.
  destruct (decide (s = "")) as [-> | Hne]; [done |].
  rewrite !bool_decide_eq_false_2; [| done | by rewrite toLowerCase_empty].
  simpl. by rewrite toLowerCase_idem.
Qed.

Lemma entriesOf_lowerAddr (data : list ApiRow) :
  entriesOf (map lowerAddr data) = entriesOf data.
Proof.
  induction data as [|r data IH]; simpl; [done |].
  rewrite IH. unfold entryOf. rewrite addrKey_lowerAddr. done.
Qed.

(** X7. Addresses are matched without regard to case: writing the
    addresses of the fetched rows in lower case changes nothing in the
    outcome of the poll, table or error. *)
Theorem fetchTable_ignores_case (rows data : option (list ApiRow)) :
  fetchTable (Body (map lowerAddr <$> rows) (map lowerAddr <$> data))
  = fetchTable (Body rows data).
Proof.
  unfold fetchTable.
  replace (dataOf (map lowerAddr <$> rows) (map lowerAddr <$> data))
    with (map lowerAddr (dataOf rows data)) by (by destruct rows, data).
  by rewrite entriesOf_lowerAddr.
Qed.

(** X8. A poll that fails changes nothing the snapshot job reads: the rows
    shown stay the ones of the last poll that succeeded, the timers and the
    remembered bucket are untouched; the failure is written to the console
    and, unless the component is unmounted, shown as the error. *)
Theorem failed_poll_keeps_rows (resp : Response) (e : Exn) (w : World) (n : nat) :
  fetchTable resp = inl e -> inflight w = S n ->
  rows (dispatch w (Settle resp)) = rows w /\
  timers (dispatch w (Settle resp)) = timers w /\
  lastBucketRef (dispatch w (Settle resp)) = lastBucketRef w /\
  handed (dispatch w (Settle resp)) = handed w /\
  inflight (dispatch w (Settle resp)) = n /\
  console (dispatch w (Settle resp)) = console w ++ [exn_message e] /\
  (stop w = false ->
   error (dispatch w (Settle resp)) = Some (exn_message e) /\
   loading (dispatch w (Settle resp)) = false) /\
  (stop w = true ->
   error (dispatch w (Settle resp)) = error w /\
   loading (dispatch w (Settle resp)) = loading w).
Proof.
  intros Hresp Hn.
  destruct w as [rs ld er lb st pt snt ph ts nx fl sg co po hd]; simpl in *. subst fl.
  unfold_session. simpl. rewrite Hresp. simpl.
  destruct st; simpl; repeat split; done.
Qed.

(** An answer with status 503 while the table of [sampleAnswer] is shown. *)
Lemma failed_poll_keeps_rows_witness :
  rows (dispatch (run [Mount; Settle sampleAnswer; Fire 1 (at_ 2025 0 1 10 1) quietEnv]
                    (initial NoItem)) (Settle (HttpStatus 503)))
  = rows (run [Mount; Settle sampleAnswer; Fire 1 (at_ 2025 0 1 10 1) quietEnv]
            (initial NoItem)).
Proof.
  apply (failed_poll_keeps_rows (HttpStatus 503)
           (FetchError "Failed to fetch (503)")
           (run [Mount; Settle sampleAnswer; Fire 1 (at_ 2025 0 1 10 1) quietEnv]
              (initial NoItem)) 0); reflexivity.
Defined.

End NormalisationMore.

Section Lifecycle.

(** *** After the teardown *)

Lemma unmount_cancels_intervals_witness :
  stop (run sessionUnmounted (initial NoItem)) = true /\
  forall t, t ∈ timers (run sessionUnmounted (initial NoItem)) -> timer_kind t = Timeout.
Proof. apply (unmount_cancels_intervals NoItem sessionUnmounted). reflexivity. Defined.

Lemma timeouts_snapshot_dispatch (w : World) (a : Action) :
  timeouts_snapshot w -> timeouts_snapshot (dispatch w a).
Proof.
  intros Hinv. destruct a as [| |id now env|resp].
  - destruct w as [rs ? ? ? st pt snt ph ts nx n ? ? ? ?]; simpl in *.
    unfold_session; unfold timeouts_snapshot in *; simpl in *.
    destruct ph; simpl; try done.
    intros t. rewrite !elem_of_app, !list_elem_of_singleton.
    intros [[[Ht | ->] | ->] | ->]; simpl; try done; eauto.
  - destruct w as [rs ? ? ? st pt snt ph ts nx n ? ? ? ?]; simpl in *.
    unfold_session; unfold timeouts_snapshot in *; simpl in *.
    destruct ph, pt, snt; simpl; try done;
      (intros t Ht; repeat apply elem_of_disarm in Ht; eauto).
  - unfold dispatch. rewrite step_fire.
    destruct (armed id w) as [t|] eqn:Harmed; [| done].
    assert (Hw1 : timeouts_snapshot (afterFiring id t w)).
    { unfold afterFiring. destruct (timer_kind t); [done |].
      unfold timeouts_snapshot in *. simpl.
      intros t' Ht'%elem_of_disarm. eauto. }
    unfold runCallback. destruct (timer_cb t) as [|rs].
    + unfold fetchData_start, bind, modify. simpl. done.
    + destruct (maybeSnapshot_cases rs now env (afterFiring id t w))
        as [-> | (_ & _ & _ & w2 & -> & Hin & _)]; [done |].
      destruct Hin as (_ & _ & _ & _ & _ & _ & _ & _ & Ht & _).
      simpl in *. unfold timeouts_snapshot in *. rewrite Ht. done.
  - destruct w as [rs ? ? ? st pt snt ph ts nx n ? ? ? ?]; simpl in *.
    unfold_session; unfold timeouts_snapshot in *; simpl in *.
    destruct n; simpl; [done |].
    destruct (fetchTable resp) as [e|table] eqn:Hresp; simpl.
    + destruct st; simpl; done.
    + destruct st; simpl; [done |].
      destruct snt; simpl; intros t;
        rewrite !elem_of_app, !list_elem_of_singleton;
        (intros [[Ht | ->] | ->]; simpl; [| done | eauto]);
        try apply elem_of_disarm in Ht; eauto.
Qed.

(** X10. After the teardown the component is left alone: whatever happens
    next (a pending timeout firing, a late answer to a poll) the rows, the
    loading flag and the error stay as they are, and no new request is
    sent. *)
Theorem unmounted_is_frozen (st : Stored) (acts : list Action) (a : Action) :
  phase (run acts (initial st)) = Unmounted ->
  rows (dispatch (run acts (initial st)) a) = rows (run acts (initial st)) /\
  loading (dispatch (run acts (initial st)) a) = loading (run acts (initial st)) /\
  error (dispatch (run acts (initial st)) a) = error (run acts (initial st)) /\
  phase (dispatch (run acts (initial st)) a) = Unmounted /\
  (inflight (dispatch (run acts (initial st)) a) <= inflight (run acts (initial st)))%nat.
Proof.
  intros Hph.
  destruct (unmount_cancels_intervals st acts Hph) as [Hstop Hkinds].
  assert (Hcb : timeouts_snapshot (run acts (initial st))).
  { apply run_invariant; [apply timeouts_snapshot_dispatch |].
    intros t Ht. by apply elem_of_nil in Ht. }
  set (w := run acts (initial st)) in *.
  destruct a as [| |id now env|resp].
  - unfold dispatch, step, bind, gets, ret. rewrite Hph. done.
  - unfold dispatch, step, bind, gets, ret. rewrite Hph. done.
  - unfold dispatch. rewrite step_fire.
    destruct (armed id w) as [t|] eqn:Harmed; [| done].
    pose proof (armed_elem_of id w t Harmed) as Ht.
    destruct (Hcb t Ht (Hkinds t Ht)) as [rs Hrs].
    unfold runCallback. rewrite Hrs.
    destruct (maybeSnapshot_cases rs now env (afterFiring id t w))
      as [-> | (_ & _ & _ & w2 & -> & Hin & _)].
    + unfold afterFiring. destruct (timer_kind t); simpl; rewrite ?Hph; done.
    + destruct Hin as (Hr & Hl & He & _ & _ & _ & _ & Hp & _ & _ & Hf).
      simpl in *. rewrite Hr, Hl, He, Hp, Hf.
      unfold afterFiring. destruct (timer_kind t); simpl; rewrite ?Hph; done.
  - clearbody w.
    destruct w as [rs ? ? ? sp pt snt ph ts nx n ? ? ? ?]; simpl in *. subst.
    unfold_session. simpl.
    destruct n; simpl; [done |].
    destruct (fetchTable resp); simpl; repeat split; try done; lia.
Qed.

Lemma unmounted_is_frozen_witness :
  rows (dispatch (run sessionUnmounted (initial NoItem)) (Settle sampleAnswer))
  = rows (run sessionUnmounted (initial NoItem)) /\
  loading (dispatch (run sessionUnmounted (initial NoItem)) (Settle sampleAnswer))
  = loading (run sessionUnmounted (initial NoItem)) /\
  error (dispatch (run sessionUnmounted (initial NoItem)) (Settle sampleAnswer))
  = error (run sessionUnmounted (initial NoItem)) /\
  phase (dispatch (run sessionUnmounted (initial NoItem)) (Settle sampleAnswer))
  = Unmounted /\
  (inflight (dispatch (run sessionUnmounted (initial NoItem)) (Settle sampleAnswer))
   <= inflight (run sessionUnmounted (initial NoItem)))%nat.
Proof.
  apply (unmounted_is_frozen NoItem sessionUnmounted (Settle sampleAnswer)).
  reflexivity.
Defined.

End Lifecycle.

Section Intervals.

(** *** The two intervals of a mounted component *)

Lemma armed_id (id : nat) (w : World) (t : Timer) :
  armed id w = Some t -> timer_id t = id.
Proof.
  unfold armed. destruct (list_find _ _) as [[i t']|] eqn:Hfind; [| done].
  simpl. intros [= <-]. by apply list_find_Some in Hfind as (_ & Hid & _).
Qed.

Lemma NoDup_fmap_elem_eq {A B : Type} (f : A -> B) (l : list A) (x y : A) :
  NoDup (map f l) -> x ∈ l -> y ∈ l -> f x = f y -> x = y.
Proof.
  induction l as [|a l IH]; simpl; intros Hnd Hx Hy Hf.
  - by apply elem_of_nil in Hx.
  - apply NoDup_cons in Hnd as [Ha Hnd].
    apply elem_of_cons in Hx as [-> | Hx]; apply elem_of_cons in Hy as [-> | Hy];
      try done; try (by apply IH).
    + exfalso. apply Ha. rewrite Hf. apply list_elem_of_fmap. eauto.
    + exfalso. apply Ha. rewrite <- Hf. apply list_elem_of_fmap. eauto.
Qed.

Lemma NoDup_ids_disarm (id : nat) (ts : list Timer) :
  NoDup (map timer_id ts) -> NoDup (map timer_id (disarm id ts)).
Proof.
  intros Hnd. eapply sublist_NoDup; [exact Hnd |].
  apply (fmap_sublist timer_id), sublist_filter.
Qed.

Lemma intervals_disarm (id : nat) (ts : list Timer) :
  filter (fun t => timer_kind t = Interval) (disarm id ts)
  = disarm id (filter (fun t => timer_kind t = Interval) ts).
Proof.
  unfold disarm. induction ts as [|t ts IH]; [done |].
  rewrite !filter_cons.
  destruct (decide (timer_id t ≠ id)), (decide (timer_kind t = Interval));
    rewrite ?filter_cons; repeat case_decide; try done; by rewrite IH.
Qed.

Lemma two_intervals_dispatch (w : World) (a : Action) :
  two_intervals w -> two_intervals (dispatch w a).
Proof.
  intros Hinv. destruct a as [| |id now env|resp].
  - destruct w as [rs ? ? ? st pt snt ph ts nx n ? ? ? ?]; simpl in *.
    unfold_session; unfold two_intervals, intervalsOf in *; simpl in *.
    destruct ph; simpl in *; try done.
    destruct Hinv as [-> ->]. simpl.
    split; [done |]. split.
    { rewrite !NoDup_cons, !elem_of_cons, elem_of_nil.
      repeat split; try apply NoDup_nil_2;
        rewrite ?elem_of_cons, ?elem_of_nil; lia. }
    split.
    { intros t. rewrite !elem_of_cons, elem_of_nil.
      intros [-> | [-> | [-> | []]]]; simpl; lia. }
    exists nx, (S nx). repeat split; lia.
  - destruct w as [rs ? ? ? st pt snt ph ts nx n ? ? ? ?]; simpl in *.
    unfold_session; unfold two_intervals in *; simpl in *.
    destruct ph; simpl in *; try done.
    destruct pt, snt; done.
  - unfold dispatch. rewrite step_fire.
    destruct (armed id w) as [t|] eqn:Harmed; [| done].
    pose proof (armed_elem_of _ _ _ Harmed) as Ht.
    pose proof (armed_id _ _ _ Harmed) as Hid.
    destruct (phase w) eqn:Hph.
    + unfold two_intervals in Hinv. rewrite Hph in Hinv.
      destruct Hinv as [Hnil _]. rewrite Hnil in Ht. by apply elem_of_nil in Ht.
    + assert (Hw1 : two_intervals (afterFiring id t w)).
      { unfold afterFiring. destruct (timer_kind t) eqn:Hk; [done |].
        unfold two_intervals, intervalsOf in *. simpl. rewrite Hph in *.
        destruct Hinv as (Hstop & Hnd & Hlt & p & s & Hp & Hs & Hps & Hint).
        split; [done |]. split; [by apply NoDup_ids_disarm |].
        split; [intros t' Ht'%elem_of_disarm; auto |].
        exists p, s. repeat split; try done.
        rewrite intervals_disarm, Hint.
        assert (Hne : forall t', t' ∈ filter (fun t => timer_kind t = Interval) (timers w) ->
                                timer_id t' <> id).
        { intros t' [Hk' Ht']%list_elem_of_filter Heq.
          assert (t' = t) as -> by (eapply NoDup_fmap_elem_eq; eauto; congruence).
          congruence. }
        rewrite Hint in Hne.
        pose proof (Hne _ ltac:(apply list_elem_of_here)) as Hp'.
        pose proof (Hne _ ltac:(apply list_elem_of_further, list_elem_of_here)) as Hs'.
        simpl in Hp', Hs'. unfold disarm.
        rewrite !filter_cons. simpl. repeat case_decide; done. }
      assert (Hph1 : phase (afterFiring id t w) = Mounted).
      { unfold afterFiring. destruct (timer_kind t); done. }
      unfold runCallback. destruct (timer_cb t) as [|rs].
      * unfold fetchData_start, bind, modify. simpl.
        unfold two_intervals, intervalsOf in *. simpl. rewrite Hph1 in *. done.
      * destruct (maybeSnapshot_cases rs now env (afterFiring id t w))
          as [-> | (_ & _ & _ & w2 & -> & Hin & _)]; [done |].
        destruct Hin as (Hr & _ & _ & _ & Hst & Hpt & Hsnt & Hp2 & Hts & Hnx & Hfl).
        simpl in *. unfold two_intervals, intervalsOf in *.
        rewrite Hp2, Hts, Hst, Hpt, Hsnt, Hnx, Hr, Hfl. exact Hw1.
    + assert (Hph1 : phase (afterFiring id t w) = Unmounted).
      { unfold afterFiring. destruct (timer_kind t); done. }
      unfold runCallback. destruct (timer_cb t) as [|rs].
      * unfold fetchData_start, bind, modify. simpl.
        unfold two_intervals. simpl. by rewrite Hph1.
      * destruct (maybeSnapshot_cases rs now env (afterFiring id t w))
          as [-> | (_ & _ & _ & w2 & -> & Hin & _)].
        -- unfold two_intervals. by rewrite Hph1.
        -- destruct Hin as (_ & _ & _ & _ & _ & _ & _ & Hp2 & _).
           simpl in *. unfold two_intervals. by rewrite Hp2, Hph1.
  - destruct w as [rs ? ? ? st pt snt ph ts nx n ? ? ? ?]; simpl in *.
    unfold_session; unfold two_intervals, intervalsOf in *; simpl in *.
    destruct n; simpl; [done |].
    destruct ph; simpl in *; [by destruct Hinv | |].
    2: { destruct (fetchTable resp); simpl; [destruct st | destruct st; [| destruct snt]];
         simpl; done. }
    destruct Hinv as (-> & Hnd & Hlt & p & s & -> & -> & Hps & Hint).
    destruct (fetchTable resp) as [e|table]; simpl.
    + split; [done |]. split; [done |]. split; [done |]. by exists p, s.
    + assert (Hp : (p < nx)%nat).
      { assert (Hin : {| timer_id := p; timer_kind := Interval; timer_delay := 60000;
                         timer_cb := FetchData |} ∈ ts).
        { eapply (proj1 (list_elem_of_filter _ _ _)). rewrite Hint.
          apply list_elem_of_here. }
        apply (Hlt _ Hin). }
      split; [done |]. split.
      { rewrite !map_app. simpl. rewrite <- app_assoc. simpl.
        apply NoDup_app. split; [by apply NoDup_ids_disarm |]. split.
        - intros i Hi. apply (proj1 (list_elem_of_fmap _ _ _)) in Hi as (t & -> & Ht).
          apply elem_of_disarm in Ht. apply Hlt in Ht. simpl in Ht.
          rewrite !elem_of_cons, elem_of_nil. lia.
        - rewrite !NoDup_cons, !elem_of_cons, elem_of_nil.
          repeat split; try apply NoDup_nil_2;
            rewrite ?elem_of_cons, ?elem_of_nil; lia. }
      split.
      { intros t. rewrite !elem_of_app, !list_elem_of_singleton.
        intros [[Ht%elem_of_disarm | ->] | ->]; simpl; [| lia | lia].
        apply Hlt in Ht. simpl in Ht. lia. }
      exists p, nx. repeat split; [done |].
      rewrite !filter_app, intervals_disarm, Hint. unfold disarm.
      rewrite !filter_cons. simpl.
      repeat case_decide; try done; try lia. 
Qed.

(** X10. While the component is mounted exactly two intervals are armed,
    however often the rows have changed: the poll, and one snapshot job,
    which holds the rows the component shows now.  Each new table replaces
    the snapshot interval; none piles up. *)
Theorem mounted_has_two_intervals (st : Stored) (acts : list Action) :
  phase (run acts (initial st)) = Mounted ->
  exists p s,
    pollTimer (run acts (initial st)) = Some p /\
    snapshotTimer (run acts (initial st)) = Some s /\
    p <> s /\
    intervalsOf (run acts (initial st))
    = [ {| timer_id := p; timer_kind := Interval; timer_delay := 60000;
           timer_cb := FetchData |};
        {| timer_id := s; timer_kind := Interval; timer_delay := 60000;
           timer_cb := MaybeSnapshot (rows (run acts (initial st))) |} ].
Proof.
  intros Hph.
  assert (Hinv : two_intervals (run acts (initial st))).
  { apply run_invariant; [apply two_intervals_dispatch | done]. }
  unfold two_intervals in Hinv. rewrite Hph in Hinv.
  destruct Hinv as (_ & _ & _ & p & s & Hp & Hs & Hps & Hint).
  exists p, s. repeat split; try done. lia.
Qed.

Lemma mounted_has_two_intervals_witness :
  exists p s,
    pollTimer (run sessionTwoHours (initial NoItem)) = Some p /\
    snapshotTimer (run sessionTwoHours (initial NoItem)) = Some s /\
    p <> s /\
    intervalsOf (run sessionTwoHours (initial NoItem))
    = [ {| timer_id := p; timer_kind := Interval; timer_delay := 60000;
           timer_cb := FetchData |};
        {| timer_id := s; timer_kind := Interval; timer_delay := 60000;
           timer_cb := MaybeSnapshot (rows (run sessionTwoHours (initial NoItem))) |} ].
Proof. apply (mounted_has_two_intervals NoItem sessionTwoHours). reflexivity. Defined.

End Intervals.

Section Stamps.

(** *** When and from what a snapshot is taken *)

Lemma taken_in_window_run (D : Date -> Prop) (acts : list Action) (w : World) :
  (forall s, s ∈ handed w -> taken_in_window D s) ->
  (forall d, d ∈ fireDates acts -> D d) ->
  forall s, s ∈ handed (run acts w) -> taken_in_window D s.
Proof.
  revert w. induction acts as [|a acts IH]; intros w Hw HD; [done |].
  simpl. apply IH.
  - destruct (fireDate a) as [d|] eqn:Ha.
    + destruct a as [| |id now env|]; try discriminate.
      injection Ha as <-.
      destruct (dispatch_fire w id now env)
        as [(_ & ->) | (t & rs & _ & _ & Hrs & Hwin & _ & _ & -> & _)]; [done |].
      intros s [Hs | ->%list_elem_of_singleton]%elem_of_app; [by apply Hw |].
      exists rs, now. repeat split; try done.
      apply HD. rewrite fireDates_cons. simpl. apply list_elem_of_here.
    + destruct (dispatch_not_fire w a Ha) as (_ & -> & _). done.
  - intros d Hd. apply HD. rewrite fireDates_cons.
    destruct (fireDate a); [by apply list_elem_of_further | done].
Qed.

(** X11. Every snapshot handed to persistence was built by a tick of the
    session that fell into a snapshot window, from rows that were not empty:
    outside the first five minutes of an even hour, or before any row has
    arrived, nothing is ever recorded. *)
Theorem snapshots_taken_in_window (st : Stored) (acts : list Action) (s : Snapshot) :
  s ∈ handed (run acts (initial st)) ->
  exists rs now,
    now ∈ fireDates acts /\ isSnapshotWindow now = true /\ rs <> [] /\
    s = payloadOf rs now.
Proof.
  intros Hs.
  apply (taken_in_window_run (fun d => d ∈ fireDates acts) acts (initial st)); try done.
  intros s' Hs'. by apply elem_of_nil in Hs'.
Qed.

Lemma snapshots_taken_in_window_witness :
  exists rs now,
    now ∈ fireDates sessionTwoHours /\ isSnapshotWindow now = true /\ rs <> [] /\
    payloadOf sampleTable (at_ 2025 0 1 12 0) = payloadOf rs now.
Proof.
  apply (snapshots_taken_in_window NoItem sessionTwoHours).
  vm_compute. right. left.
Defined.

Lemma minute_table :
  forallb (fun m => bool_decide (pad2 m ∈ ["00"; "01"; "02"; "03"; "04"])) (seqZ 0 5) = true.
Proof. vm_compute. reflexivity. Qed.

(** X12. For a date with a four-digit year the bucket of a snapshot is its
    [captured_at] stamp cut after the hour, followed by [:00Z]; and as the
    snapshot is taken inside a window, the minutes of the stamp are 00 to
    04. *)
Theorem bucket_is_truncated_stamp (rs : list MetricsRow) (now : Date) :
  valid_date now -> 1000 <= getUTCFullYear now <= 9999 ->
  isSnapshotWindow now = true ->
  bucket (payloadOf rs now)
  = String.substring 0 13 (captured_at (payloadOf rs now)) +:+ ":00Z" /\
  String.substring 14 2 (captured_at (payloadOf rs now))
  ∈ ["00"; "01"; "02"; "03"; "04"].
Proof.
  intros (Hmo & Hd & Hh & Hmi & _) Hy Hwin.
  assert (Hy' := year_four_digits _ Hy).
  assert (Hmo' := pad2_two_digits (getUTCMonth now + 1) ltac:(lia)).
  assert (Hd' := pad2_two_digits (getUTCDate now) ltac:(lia)).
  assert (Hh' := pad2_two_digits (getUTCHours now) ltac:(lia)).
  assert (Hm' : pad2 (getUTCMinutes now) ∈ ["00"; "01"; "02"; "03"; "04"]).
  { unfold isSnapshotWindow in Hwin. apply andb_true_iff in Hwin as [_ Hlt%Z.ltb_lt].
    pose proof minute_table as Htab. rewrite forallb_forall in Htab.
    eapply bool_decide_eq_true_1, (Htab (getUTCMinutes now)).
    apply list_elem_of_In, elem_of_seqZ. lia. }
  simpl. rewrite snapshotBucketKey_split. unfold keyTail, toISOString.
  replace ((0 <=? getUTCFullYear now) && (getUTCFullYear now <=? 9999)) with true
    by (symmetry; apply andb_true_iff; split; apply Z.leb_le; lia).
  fold (pad2 (getUTCMonth now + 1)) (pad2 (getUTCDate now)) (pad2 (getUTCHours now))
    (pad2 (getUTCMinutes now)).
  destruct (showInt _) as [|y1 [|y2 [|y3 [|y4 [|? ?]]]]]; try done.
  destruct (pad2 (getUTCMonth now + 1)) as [|m1 [|m2 [|? ?]]]; try done.
  destruct (pad2 (getUTCDate now)) as [|d1 [|d2 [|? ?]]]; try done.
  destruct (pad2 (getUTCHours now)) as [|h1 [|h2 [|? ?]]]; try done.
  rewrite !elem_of_cons, elem_of_nil in Hm'.
  destruct Hm' as [-> | [-> | [-> | [-> | [-> | []]]]]];
    (split; [reflexivity |]); simpl; repeat constructor.
Qed.

Lemma bucket_is_truncated_stamp_witness :
  bucket (payloadOf sampleTable (at_ 2025 0 1 10 0))
  = String.substring 0 13 (captured_at (payloadOf sampleTable (at_ 2025 0 1 10 0)))
    +:+ ":00Z" /\
  String.substring 14 2 (captured_at (payloadOf sampleTable (at_ 2025 0 1 10 0)))
  ∈ ["00"; "01"; "02"; "03"; "04"].
Proof.
  apply (bucket_is_truncated_stamp sampleTable (at_ 2025 0 1 10 0));
    [unfold valid_date; simpl; lia | simpl; lia | reflexivity].
Defined.

End Stamps.

(* ===================================================================== *)
(** * Properties of the leaderboard                                       *)
(* ===================================================================== *)

Section Arithmetic.

(** *** The sign of a difference *)

Lemma rne_lower (n d : Z) : 0 < d -> n / d <= rne n d.
Proof.
  intros Hd. unfold rne.
  destruct (2 * (n mod d) ?= d); [destruct (Z.even _) | |]; lia.
Qed.

(** Rounding a positive integer never gives zero or less. *)
Lemma round_pos_positive (n : Z) :
  0 < n -> round_pos n 1 = PosInf \/ exists k, round_pos n 1 = Fin k /\ 0 < k.
Proof.
  intros Hn. unfold round_pos. rewrite Z.div_1_r, Z.mul_1_l.
  set (s := Z.max 0 (Z.log2 n - 52)).
  assert (Hs : 0 <= s <= Z.log2 n).
  { unfold s. pose proof (Z.log2_nonneg n). lia. }
  assert (Hpow : 0 < 2 ^ s <= n).
  { split; [apply Z.pow_pos_nonneg; lia |].
    transitivity (2 ^ Z.log2 n); [apply Z.pow_le_mono_r; lia |].
    apply Z.log2_spec. lia. }
  assert (Hq : 1 <= rne n (2 ^ s)).
  { etransitivity; [| apply rne_lower; lia].
    apply Z.div_le_lower_bound; lia. }
  destruct (2 ^ 2098 <=? rne n (2 ^ s) * 2 ^ s); [by left |].
  right. eexists. split; [reflexivity |]. nia.
Qed.

Lemma ltb_zero_round (n : Z) : ltb zero (round n 1) = (0 <? n).
Proof.
  unfold round. destruct (Z.ltb_spec n 0) as [Hneg | Hpos].
  - destruct (round_pos_positive (- n)) as [-> | (k & -> & Hk)]; [lia | |]; simpl.
    + symmetry. apply Z.ltb_ge. lia.
    + transitivity false; [apply Z.ltb_ge; lia | symmetry; apply Z.ltb_ge; lia].
  - destruct (decide (n = 0)) as [-> | Hn]; [reflexivity |].
    destruct (round_pos_positive n) as [-> | (k & -> & Hk)]; [lia | |]; simpl.
    + symmetry. apply Z.ltb_lt. lia.
    + transitivity true; [apply Z.ltb_lt; lia | symmetry; apply Z.ltb_lt; lia].
Qed.

(** For numbers that are not NaN the comparator [b - a] is positive exactly
    when [a < b]. *)
Lemma comparator_positive (a b : number) :
  a <> NaN -> b <> NaN -> ltb zero (sub b a) = ltb a b.
Proof.
  intros Ha Hb. destruct a as [| | |x], b as [| | |y]; try done.
  unfold sub, add, neg. rewrite ltb_zero_round. simpl.
  destruct (Z.ltb_spec 0 (y + - x)), (Z.ltb_spec x y); try done; lia.
Qed.

Lemma geb_not_ltb (a b : number) :
  a <> NaN -> b <> NaN -> geb a b = negb (ltb a b).
Proof.
  intros Ha Hb. destruct a as [| | |x], b as [| | |y]; try done.
  simpl. destruct (Z.leb_spec y x), (Z.ltb_spec x y); try done; lia.
Qed.

Lemma ltb_asym (a b : number) : ltb a b = true -> ltb b a = false.
Proof.
  destruct a as [| | |x], b as [| | |y]; try done. simpl.
  intros H%Z.ltb_lt. apply Z.ltb_ge. lia.
Qed.

Lemma ltb_negtrans (a b c : number) :
  a <> NaN -> b <> NaN -> c <> NaN ->
  ltb a b = false -> ltb b c = false -> ltb a c = false.
Proof.
  intros Ha Hb Hc.
  destruct a as [| | |x], b as [| | |y], c as [| | |z]; try done. simpl.
  intros H1%Z.ltb_ge H2%Z.ltb_ge. apply Z.ltb_ge. lia.
Qed.

(** NaN, once in a sum, stays. *)
Lemma foldl_add_NaN (cs : list number) : foldl add NaN cs = NaN.
Proof. induction cs as [|c cs IH]; [done | exact IH]. Qed.

End Arithmetic.

Import Leaderboard.

Section Sorting.
Context {A : Type} (after : A -> A -> bool).

Lemma insertBy_perm (x : A) (l : list A) : insertBy after x l ≡ₚ x :: l.
Proof.
  induction l as [|y l IH]; simpl; [done |].
  destruct (after x y); [| done].
  rewrite IH. apply Permutation_swap.
Qed.

Lemma sortBy_perm (l : list A) : sortBy after l ≡ₚ l.
Proof.
  induction l as [|x l IH]; simpl; [done |].
  rewrite insertBy_perm. by rewrite IH.
Qed.

(** Among elements on which [after] is asymmetric and its complement is
    transitive, the result is sorted: no element has to come after one
    that follows it. *)
Context (P : A -> Prop).
Hypothesis after_asym :
  forall x y, P x -> P y -> after x y = true -> after y x = false.
Hypothesis after_negtrans :
  forall x y z, P x -> P y -> P z ->
    after x y = false -> after y z = false -> after x z = false.

Lemma insertBy_sorted (x : A) (l : list A) :
  P x -> Forall P l ->
  StronglySorted (fun a b => after a b = false) l ->
  StronglySorted (fun a b => after a b = false) (insertBy after x l).
Proof.
  intros Hx Hl Hsorted. induction Hsorted as [|y l Hs IH Hy]; simpl.
  { repeat constructor. }
  apply Forall_cons in Hl as [HPy Hl].
  destruct (after x y) eqn:Hxy.
  - constructor; [by apply IH |].
    rewrite insertBy_perm. constructor; [by apply after_asym | done].
  - constructor; [by constructor |].
    constructor; [done |].
    rewrite Forall_forall in Hy, Hl |- *. intros z Hz.
    apply (after_negtrans x y z); auto.
Qed.

Lemma sortBy_sorted (l : list A) :
  Forall P l -> StronglySorted (fun a b => after a b = false) (sortBy after l).
Proof.
  induction l as [|x l IH]; simpl; [constructor |].
  intros [Hx Hl]%Forall_cons. apply insertBy_sorted; [done | | by apply IH].
  by rewrite sortBy_perm.
Qed.

End Sorting.

Lemma StronglySorted_lookup {A : Type} (R : A -> A -> Prop) (l : list A)
    (i j : nat) (x y : A) :
  StronglySorted R l -> (i < j)%nat -> l !! i = Some x -> l !! j = Some y -> R x y.
Proof.
  intros Hs. revert i j. induction Hs as [|z l Hs IH Hz]; intros i j Hij Hi Hj.
  { done. }
  destruct i as [|i], j as [|j]; simpl in *; try lia.
  - simplify_eq. rewrite Forall_forall in Hz. apply Hz.
    by apply list_elem_of_lookup_2 in Hj.
  - apply (IH i j); [lia | done..].
Qed.

Section Totals.

(** *** The object [totals] *)

Lemma getOwn_assign (k k' : string) (v : number) (o : list (string * number)) :
  getOwn k' (assign k v o) = if decide (k = k') then Some v else getOwn k' o.
Proof.
  induction o as [|[k0 v0] o IH]; simpl.
  - case_bool_decide; case_decide; done.
  - destruct (decide (k0 = k)) as [-> | Hne].
    + rewrite bool_decide_eq_true_2 by done. simpl.
      case_bool_decide; case_decide; done.
    + rewrite (bool_decide_eq_false_2 (k0 = k)) by done. simpl.
      rewrite IH. case_bool_decide; case_decide; try done. congruence.
Qed.

Lemma keys_assign (k k' : string) (v : number) (o : list (string * number)) :
  k' ∈ map fst (assign k v o) <-> k' = k \/ k' ∈ map fst o.
Proof.
  induction o as [|[k0 v0] o IH]; simpl.
  - rewrite list_elem_of_singleton, elem_of_nil. tauto.
  - case_bool_decide as Hk; simpl; rewrite !elem_of_cons, ?IH; subst; tauto.
Qed.

Lemma NoDup_assign (k : string) (v : number) (o : list (string * number)) :
  NoDup (map fst o) -> NoDup (map fst (assign k v o)).
Proof.
  induction o as [|[k0 v0] o IH]; simpl; intros Hnd.
  - apply NoDup_singleton.
  - apply NoDup_cons in Hnd as [Hk0 Hnd].
    case_bool_decide as Hk; simpl.
    + subst. by apply NoDup_cons.
    + apply NoDup_cons. split; [| by apply IH].
      rewrite keys_assign. intros [-> | ?]; done.
Qed.

Lemma getOwn_elem_of (k : string) (v : number) (o : list (string * number)) :
  NoDup (map fst o) -> ((k, v) ∈ o <-> getOwn k o = Some v).
Proof.
  induction o as [|[k0 v0] o IH]; simpl; intros Hnd.
  - rewrite elem_of_nil. done.
  - apply NoDup_cons in Hnd as [Hk0 Hnd]. rewrite elem_of_cons, (IH Hnd).
    case_bool_decide as Hk.
    + subst. split; [intros [[= ->] | Hin]; [done |] | intros [= ->]; by left].
      exfalso. apply Hk0. apply (IH Hnd) in Hin.
      apply list_elem_of_In, in_map_iff. exists (k, v).
      split; [done |]. by apply list_elem_of_In.
    + split; [intros [[= -> ->] | ?]; done | by right].
Qed.

Lemma getOwn_accumulate (a : string) (totals : list (string * number)) (r : Row) :
  getOwn a (accumulate totals r) = bump a (getOwn a totals) r.
Proof.
  unfold accumulate, bump. rewrite getOwn_assign.
  case_decide; [| done]. subst. unfold orZero. by destruct (getOwn _ _).
Qed.

Lemma getOwn_foldl (a : string) (rows : list Row) (totals : list (string * number)) :
  getOwn a (foldl accumulate totals rows) = foldl (bump a) (getOwn a totals) rows.
Proof.
  revert totals. induction rows as [|r rows IH]; intros totals; simpl; [done |].
  by rewrite IH, getOwn_accumulate.
Qed.

Lemma keys_foldl (k : string) (rows : list Row) (totals : list (string * number)) :
  k ∈ map fst (foldl accumulate totals rows)
  <-> k ∈ map fst totals \/ exists r, r ∈ rows /\ addrOf r = k.
Proof.
  revert totals. induction rows as [|r rows IH]; intros totals; simpl.
  - split; [by left | intros [? | (r & Hr & _)]; [done | by apply elem_of_nil in Hr]].
  - rewrite IH. unfold accumulate at 1. rewrite keys_assign. split.
    + intros [[-> | ?] | (r' & Hr' & <-)].
      * right. exists r. split; [left | done].
      * by left.
      * right. exists r'. split; [by right | done].
    + intros [? | (r' & [-> | Hr']%elem_of_cons & <-)]; eauto.
Qed.

Lemma NoDup_foldl (rows : list Row) (totals : list (string * number)) :
  NoDup (map fst totals) -> NoDup (map fst (foldl accumulate totals rows)).
Proof.
  revert totals. induction rows as [|r rows IH]; intros totals Hnd; simpl; [done |].
  apply IH. by apply NoDup_assign.
Qed.

(** *** The code's totals and the sums of the groups *)

Lemma orZero_id (s : number) : s <> NaN -> orZero (Some s) = s.
Proof.
  destruct s as [| | |k]; try done. simpl.
  destruct (Z.eqb_spec k 0) as [-> | ?]; done.
Qed.

Lemma bump_same (a : string) (t : option number) (r : Row) :
  addrOf r = a -> bump a t r = Some (add (orZero t) (cyclesOf r)).
Proof. intros H. unfold bump. by rewrite decide_True. Qed.

Lemma bump_other (a : string) (t : option number) (r : Row) :
  addrOf r <> a -> bump a t r = t.
Proof. intros H. unfold bump. by rewrite decide_False. Qed.

Lemma foldl_bump_Some (a : string) (rows : list Row) (s : number) :
  foldl add s (map cyclesOf (filter (fun r => addrOf r = a) rows)) <> NaN ->
  foldl (bump a) (Some s) rows
  = Some (foldl add s (map cyclesOf (filter (fun r => addrOf r = a) rows))).
Proof.
  revert s. induction rows as [|r rows IH]; intros s Hs; simpl; [done |].
  rewrite filter_cons in *.
  destruct (decide (addrOf r = a)) as [Hr | Hr]; simpl in *.
  - assert (s <> NaN) by (intros ->; simpl in Hs; by rewrite foldl_add_NaN in Hs).
    rewrite bump_same, orZero_id by done. by apply IH.
  - rewrite bump_other by done. by apply IH.
Qed.

Lemma foldl_bump_None (a : string) (rows : list Row) :
  groupSum rows a <> NaN ->
  foldl (bump a) None rows
  = if decide (a ∈ map addrOf rows) then Some (groupSum rows a) else None.
Proof.
  unfold groupSum. induction rows as [|r rows IH]; intros Hs.
  { cbn [foldl map]. destruct (decide _) as [H%elem_of_nil |]; done. }
  simpl. rewrite filter_cons in *.
  destruct (decide (addrOf r = a)) as [Hr | Hr]; simpl in *.
  - rewrite bump_same by done. simpl. rewrite foldl_bump_Some by done.
    rewrite decide_True; [done |]. rewrite Hr. left.
  - rewrite bump_other by done. rewrite IH by done.
    case_decide as H1; case_decide as H2; try done.
    + exfalso. apply H2. by right.
    + exfalso. apply elem_of_cons in H2 as [-> | H2]; done.
Qed.

(** When no sum is NaN, the object holds exactly the groups with their
    sums. *)
Lemma totals_spec (rows : list Row) (a : string) (v : number) :
  groupSum rows a <> NaN ->
  ((a, v) ∈ foldl accumulate [] rows
   <-> a ∈ map addrOf rows /\ v = groupSum rows a).
Proof.
  intros Hs. rewrite getOwn_elem_of by (apply NoDup_foldl, NoDup_nil_2).
  rewrite getOwn_foldl. simpl. rewrite foldl_bump_None by done.
  case_decide as H; split.
  - intros [= <-]. done.
  - intros [_ ->]. done.
  - done.
  - intros [? _]. done.
Qed.

End Totals.

Section Top.

(** *** The displayed list *)

Lemma top_ranked (rows : list Row) : top rows = take 5 (ranked rows).
Proof. reflexivity. Qed.

Lemma entries_perm (o : list (string * number)) : entries o ≡ₚ o.
Proof.
  unfold entries. rewrite sortBy_perm. apply filter_app_complement.
Qed.

Lemma ranked_perm (rows : list Row) :
  ranked rows
  ≡ₚ map (fun kv => {| addr := kv.1; cycles := kv.2 |}) (foldl accumulate [] rows).
Proof.
  unfold ranked, sort. rewrite sortBy_perm. apply Permutation_map, entries_perm.
Qed.

Lemma elem_of_ranked (rows : list Row) (e : Entry) :
  e ∈ ranked rows <-> (addr e, cycles e) ∈ foldl accumulate [] rows.
Proof.
  rewrite ranked_perm. rewrite !list_elem_of_In, in_map_iff. split.
  - intros ([k v] & <- & Hin). done.
  - intros Hin. exists (addr e, cycles e). split; [by destruct e | done].
Qed.

Lemma ranked_NoDup (rows : list Row) : NoDup (map addr (ranked rows)).
Proof.
  assert (Hperm : map addr (ranked rows) ≡ₚ map fst (foldl accumulate [] rows)).
  { rewrite ranked_perm, map_map. simpl. done. }
  rewrite Hperm. apply NoDup_foldl, NoDup_nil_2.
Qed.

Lemma ranked_sum (rows : list Row) (e : Entry) :
  (forall a, groupSum rows a <> NaN) ->
  e ∈ ranked rows ->
  addr e ∈ map addrOf rows /\ cycles e = groupSum rows (addr e).
Proof.
  intros Hs He. apply elem_of_ranked in He. by apply totals_spec in He.
Qed.

Lemma ranked_sorted (rows : list Row) :
  (forall a, groupSum rows a <> NaN) ->
  StronglySorted (fun x y => ltb zero (comparefn x y) = false) (ranked rows).
Proof.
  intros Hs. unfold ranked, sort.
  apply (sortBy_sorted _ (fun e => cycles e <> NaN)).
  - intros x y Hx Hy. unfold comparefn. rewrite !comparator_positive by done.
    apply ltb_asym.
  - intros x y z Hx Hy Hz. unfold comparefn. rewrite !comparator_positive by done.
    by apply ltb_negtrans.
  - rewrite Forall_forall. intros e He.
    assert (He' : e ∈ ranked rows).
    { unfold ranked, sort. by rewrite sortBy_perm. }
    destruct (ranked_sum rows e Hs He') as [_ ->]. apply Hs.
Qed.

Lemma ranked_geb (rows : list Row) (i j : nat) (x y : Entry) :
  (forall a, groupSum rows a <> NaN) ->
  (i < j)%nat -> ranked rows !! i = Some x -> ranked rows !! j = Some y ->
  geb (cycles x) (cycles y) = true.
Proof.
  intros Hs Hij Hi Hj.
  assert (Hx : cycles x <> NaN).
  { destruct (ranked_sum rows x Hs) as [_ ->]; [| apply Hs].
    by apply list_elem_of_lookup_2 in Hi. }
  assert (Hy : cycles y <> NaN).
  { destruct (ranked_sum rows y Hs) as [_ ->]; [| apply Hs].
    by apply list_elem_of_lookup_2 in Hj. }
  pose proof (StronglySorted_lookup _ _ i j x y (ranked_sorted rows Hs) Hij Hi Hj) as H.
  unfold comparefn in H. rewrite comparator_positive in H by done.
  rewrite geb_not_ltb by done. by rewrite H.
Qed.

Lemma groupSum_absent (rows : list Row) (a : string) :
  a ∉ map addrOf rows -> groupSum rows a = zero.
Proof.
  intros Ha. unfold groupSum.
  replace (filter (fun r => addrOf r = a) rows) with (@nil Row); [done |].
  symmetry. induction rows as [|r rows IH]; [done |].
  simpl in Ha. apply not_elem_of_cons in Ha as [Hr Ha].
  rewrite filter_cons, decide_False by done. by apply IH.
Qed.

Lemma groupSum_never_NaN (rows : list Row) :
  Forall (fun r => groupSum rows (addrOf r) <> NaN) rows ->
  forall a, groupSum rows a <> NaN.
Proof.
  intros Hs a. destruct (decide (a ∈ map addrOf rows)) as [Ha | Ha].
  - apply list_elem_of_In, in_map_iff in Ha as (r & <- & Hr).
    rewrite Forall_forall in Hs. by apply Hs, list_elem_of_In.
  - by rewrite groupSum_absent.
Qed.

(** C10 (amended). The displayed list has at most five entries with
    distinct addresses. For rows whose keys are not names that every
    object inherits and whose groups all have a sum that is a number, each
    entry pairs the key of a group (rows without a [prover_addr] fall
    under "unknown") with the sum of [Number(total_cycles) || 0] over the
    group, the list is in non-increasing order of these sums, and a group
    is left out only if the list is full of groups that are no smaller. *)
Theorem top_spec (rows : list Row) :
  (length (top rows) <= 5)%nat /\
  NoDup (map addr (top rows)) /\
  (Forall (fun r => addrOf r ∉ inheritedNames) rows ->
   Forall (fun r => groupSum rows (addrOf r) <> NaN) rows ->
   (forall e, e ∈ top rows ->
      addr e ∈ map addrOf rows /\ cycles e = groupSum rows (addr e)) /\
   nonIncreasing (top rows) /\
   (forall r, r ∈ rows ->
      (exists e, e ∈ top rows /\ addr e = addrOf r) \/
      (length (top rows) = 5%nat /\
       forall e, e ∈ top rows ->
         geb (cycles e) (groupSum rows (addrOf r)) = true))).
Proof.
  rewrite top_ranked.
  split; [rewrite length_take; lia |].
  split.
  { rewrite <- firstn_map. eapply sublist_NoDup; [apply ranked_NoDup |].
    apply sublist_take. }
  intros _ Hs0. pose proof (groupSum_never_NaN rows Hs0) as Hs.
  split; [| split].
  - intros e [i [He _]]%elem_of_take.
    apply ranked_sum; [done |]. by apply list_elem_of_lookup_2 in He.
  - intros i j x y Hij Hi Hj.
    rewrite lookup_take in Hi, Hj.
    case_decide; [| done]. case_decide; [| done].
    by apply (ranked_geb rows i j).
  - intros r Hr.
    assert (Hin : {| addr := addrOf r; cycles := groupSum rows (addrOf r) |} ∈ ranked rows).
    { apply elem_of_ranked. simpl. apply totals_spec; [done |].
      split; [| done]. apply list_elem_of_In, in_map. by apply list_elem_of_In. }
    apply list_elem_of_lookup_1 in Hin as [j Hj].
    destruct (decide (j < 5)%nat) as [Hlt | Hge].
    + left. eexists. split; [apply elem_of_take; eauto | done].
    + right. apply lookup_lt_Some in Hj as Hlen. split.
      * rewrite length_take. lia.
      * intros e [i [He Hi]]%elem_of_take.
        apply (ranked_geb rows i j e _ Hs) in Hj; [done | lia | done].
Qed.

Lemma top_spec_witness :
  (forall e, e ∈ top sampleBoard ->
      addr e ∈ map addrOf sampleBoard /\ cycles e = groupSum sampleBoard (addr e)) /\
  nonIncreasing (top sampleBoard) /\
  (forall r, r ∈ sampleBoard ->
      (exists e, e ∈ top sampleBoard /\ addr e = addrOf r) \/
      (length (top sampleBoard) = 5%nat /\
       forall e, e ∈ top sampleBoard ->
         geb (cycles e) (groupSum sampleBoard (addrOf r)) = true)).
Proof.
  apply (top_spec sampleBoard).
  - repeat constructor; vm_compute; intros H;
      repeat (apply elem_of_cons in H as [H | H]; [discriminate |]);
      by apply elem_of_nil in H.
  - repeat constructor; vm_compute; discriminate.
Defined.

(** The list on display after an answer is [top] of its rows. *)
Lemma fetchData_displays_top (rows : list Row) (data : option (list Row)) (s : State) :
  provers (fetchData (Json (Some rows) data) s) = top rows.
Proof. reflexivity. Qed.

Example sampleBoard_top :
  map (fun e => (addr e, numberToString (cycles e))) (top sampleBoard)
  = [("0xe5", "100"); ("0xa2", "10"); ("0xb1", "7"); ("unknown", "7"); ("0xc3", "1.5")].
Proof. vm_compute. reflexivity. Qed.

(** The sum of such a group is NaN, which no order places: the list is
    not in non-increasing order. *)
Lemma top_unordered_with_NaN :
  top infiniteRows
  = [ {| addr := "0xa2"; cycles := NaN |}; {| addr := "0xb1"; cycles := of_Z 5 |} ] /\
  ~ nonIncreasing (top infiniteRows).
Proof.
  assert (Htop : top infiniteRows
    = [ {| addr := "0xa2"; cycles := NaN |}; {| addr := "0xb1"; cycles := of_Z 5 |} ])
    by (vm_compute; reflexivity).
  split; [exact Htop |]. rewrite Htop. intros H.
  specialize (H 0%nat 1%nat _ _ ltac:(lia) eq_refl eq_refl). discriminate.
Qed.

End Top.

(* ===================================================================== *)
(** * Properties of the parsers                                           *)
(* ===================================================================== *)

Section Strings.

Lemma string_app_cons (c : ascii) (s t : string) : String c s +:+ t = String c (s +:+ t).
Proof. reflexivity. Qed.

Lemma string_app_nil_r (s : string) : s +:+ "" = s.
Proof. induction s as [|c s IH]; [done | by rewrite string_app_cons, IH]. Qed.

Lemma string_app_assoc (a b c : string) : (a +:+ b) +:+ c = a +:+ (b +:+ c).
Proof. induction a as [|x a IH]; [done | by rewrite !string_app_cons, IH]. Qed.

Lemma string_rev_app_spec (s acc : string) : String.rev_app s acc = String.rev s +:+ acc.
Proof.
  unfold String.rev. revert acc. induction s as [|c s IH]; intros acc; simpl; [done |].
  rewrite (IH (String c acc)), (IH (String c "")), string_app_assoc. done.
Qed.

Lemma string_rev_cons (c : ascii) (s : string) : String.rev (String c s) = String.rev s +:+ String c "".
Proof. unfold String.rev at 1. simpl. apply string_rev_app_spec. Qed.

Lemma string_rev_app (a b : string) : String.rev (a +:+ b) = String.rev b +:+ String.rev a.
Proof.
  induction a as [|c a IH].
  - by rewrite string_app_nil_r.
  - by rewrite string_app_cons, !string_rev_cons, IH, string_app_assoc.
Qed.

Lemma string_rev_involutive (s : string) : String.rev (String.rev s) = s.
Proof.
  induction s as [|c s IH]; [done |].
  by rewrite string_rev_cons, string_rev_app, IH.
Qed.

Lemma span_cons (p : ascii -> bool) (c : ascii) (s : string) :
  span p (String c s)
  = if p c then (String c (fst (span p s)), snd (span p s)) else ("", String c s).
Proof. simpl. destruct (p c); [| done]. by destruct (span p s). Qed.

Lemma all_chars_cons (p : ascii -> bool) (c : ascii) (s : string) :
  all_chars p (String c s) = p c && all_chars p s.
Proof. unfold all_chars. rewrite span_cons. by destruct (p c). Qed.

Lemma all_chars_app (p : ascii -> bool) (a b : string) :
  all_chars p (a +:+ b) = all_chars p a && all_chars p b.
Proof.
  induction a as [|c a IH]; [done |].
  rewrite string_app_cons, !all_chars_cons, IH. by destruct (p c).
Qed.

Lemma all_chars_rev (p : ascii -> bool) (s : string) :
  all_chars p (String.rev s) = all_chars p s.
Proof.
  induction s as [|c s IH]; [done |].
  rewrite string_rev_cons, all_chars_app, IH, !all_chars_cons.
  unfold all_chars at 2. simpl. destruct (p c), (all_chars p s); done.
Qed.

Lemma span_fst_all (p : ascii -> bool) (s : string) : all_chars p (fst (span p s)) = true.
Proof.
  induction s as [|c s IH]; [done |].
  rewrite span_cons. destruct (p c) eqn:Hc; [| done].
  simpl. by rewrite all_chars_cons, Hc, IH.
Qed.

Lemma span_app (p : ascii -> bool) (m r : string) :
  all_chars p m = true -> stops p r -> span p (m +:+ r) = (m, r).
Proof.
  intros Hm Hr. induction m as [|c m IH].
  - destruct r as [|d r]; [done |]. simpl in Hr.
    change ("" +:+ String d r) with (String d r). by rewrite span_cons, Hr.
  - rewrite all_chars_cons in Hm. apply andb_true_iff in Hm as [Hc Hm].
    rewrite string_app_cons, span_cons, Hc, (IH Hm). done.
Qed.


Lemma all_chars_impl (p q : ascii -> bool) (s : string) :
  (forall c, p c = true -> q c = true) -> all_chars p s = true -> all_chars q s = true.
Proof.
  intros Hpq. induction s as [|c s IH]; [done |].
  rewrite !all_chars_cons. intros [Hc Hs]%andb_true_iff.
  by rewrite (Hpq c Hc), (IH Hs).
Qed.

Lemma numericChar_not_white (c : ascii) : numericChar c = true -> isWhite c = false.
Proof. destruct c as [[] [] [] [] [] [] [] []]; vm_compute; congruence. Qed.

Lemma isDigit_numericChar (c : ascii) : isDigit c = true -> numericChar c = true.
Proof. unfold numericChar. by intros ->. Qed.

Lemma trimStart_keep (s : string) : stops isWhite s -> trimStart s = s.
Proof.
  destruct s as [|c s]; [done |]. simpl. intros Hc.
  unfold trimStart. by rewrite span_cons, Hc.
Qed.

Lemma trimStart_cons (c : ascii) (s : string) :
  trimStart (String c s) = if isWhite c then trimStart s else String c s.
Proof. unfold trimStart. rewrite span_cons. by destruct (isWhite c). Qed.

Lemma trimStart_app (a : string) (c : ascii) (b : string) :
  isWhite c = false -> trimStart (a +:+ String c b) = trimStart a +:+ String c b.
Proof.
  intros Hc. induction a as [|x a IH].
  - change ("" +:+ String c b) with (String c b). by rewrite trimStart_cons, Hc.
  - rewrite string_app_cons, !trimStart_cons. by destruct (isWhite x).
Qed.

Lemma trimStart_snoc (a : string) (c : ascii) :
  trimStart (a +:+ String c "") = ""
  \/ exists z, trimStart (a +:+ String c "") = z +:+ String c "".
Proof.
  induction a as [|x a IH].
  - change ("" +:+ String c "") with (String c ""). rewrite trimStart_cons.
    destruct (isWhite c); [by left | right; by exists ""].
  - rewrite string_app_cons, trimStart_cons.
    destruct (isWhite x); [done | right; by exists (String x a)].
Qed.

(** The head of a reversed string, for a string of accepted characters. *)
Lemma string_rev_head (p : ascii -> bool) (c : ascii) (s : string) :
  all_chars p (String c s) = true ->
  exists d r, String.rev (String c s) = String d r /\ p d = true.
Proof.
  intros Hall. rewrite <- all_chars_rev in Hall.
  destruct (String.rev (String c s)) as [|d r] eqn:Hrev.
  - apply (f_equal String.rev) in Hrev. by rewrite string_rev_involutive in Hrev.
  - rewrite all_chars_cons in Hall. apply andb_true_iff in Hall as [Hd _]. eauto.
Qed.

(** Trimming a text that begins with a numeral leaves the numeral alone. *)
Lemma trim_app (m x : string) :
  m <> "" -> all_chars numericChar m = true ->
  trim (m +:+ x) = m +:+ String.rev (trimStart (String.rev x)).
Proof.
  intros Hne Hall. destruct m as [|c m]; [done |].
  assert (Hw : all_chars (fun c => negb (isWhite c)) (String c m) = true).
  { eapply all_chars_impl; [| exact Hall].
    intros d Hd%numericChar_not_white. by rewrite Hd. }
  destruct (string_rev_head _ _ _ Hw) as (d & r & Hrev & Hd).
  apply negb_true_iff in Hd.
  unfold trim. rewrite (trimStart_keep (String c m +:+ x)).
  2: { rewrite string_app_cons. cbn [stops]. rewrite all_chars_cons in Hw.
       apply andb_true_iff in Hw as [Hc _]. by apply negb_true_iff in Hc. }
  rewrite string_rev_app, Hrev, trimStart_app by done.
  by rewrite string_rev_app, <- Hrev, string_rev_involutive.
Qed.

Lemma trim_numeral (m : string) :
  m <> "" -> all_chars numericChar m = true -> trim m = m.
Proof.
  intros Hne Hall. rewrite <- (string_app_nil_r m) at 1.
  rewrite trim_app by done. apply string_app_nil_r.
Qed.

(** What trimming leaves of a suffix is empty or starts as the suffix does. *)
Lemma trimEnd_stops (p : ascii -> bool) (c : ascii) (rest : string) :
  p c = false -> stops p (String.rev (trimStart (String.rev (String c rest)))).
Proof.
  intros Hc. rewrite string_rev_cons.
  destruct (trimStart_snoc (String.rev rest) c) as [-> | [z ->]]; [done |].
  rewrite string_rev_app. exact Hc.
Qed.

Lemma leadingNumeric_app (m r : string) :
  m <> "" -> all_chars numericChar m = true -> stops numericChar r ->
  leadingNumeric (m +:+ r) = Some m.
Proof.
  intros Hne Hall Hr. unfold leadingNumeric.
  change (fun c : ascii => isDigit c || bool_decide (c = "."%char)) with numericChar.
  rewrite span_app by done. simpl. by destruct m.
Qed.

Lemma leadingNumeric_numeral (m : string) :
  m <> "" -> all_chars numericChar m = true -> leadingNumeric m = Some m.
Proof.
  intros Hne Hall. rewrite <- (string_app_nil_r m) at 1.
  by apply leadingNumeric_app.
Qed.



Lemma digitsVal_nonneg (s : string) (acc : Z) :
  all_chars isDigit s = true -> 0 <= acc -> 0 <= digitsVal 10 digitVal acc s.
Proof.
  revert acc. induction s as [|c s IH]; intros acc Hs Hacc; [done |].
  rewrite all_chars_cons in Hs. apply andb_true_iff in Hs as [Hc Hs].
  simpl. apply IH; [done |].
  unfold isDigit in Hc. unfold digitVal. lia.
Qed.

(** The fraction digits of a literal are digits. *)
Lemma fraction_digits (r1 : string) :
  all_chars isDigit
    (fst (match r1 with
          | String "." r => span isDigit r
          | _ => (EmptyString, r1)
          end)) = true.
Proof.
  destruct r1 as [|c r]; [done |].
  destruct c as [[] [] [] [] [] [] [] []]; try reflexivity.
  apply span_fst_all.
Qed.

End Strings.

Section Rounding.

Lemma rne_nonneg (n d : Z) : 0 <= n -> 0 < d -> 0 <= rne n d.
Proof.
  intros Hn Hd. etransitivity; [| by apply rne_lower].
  apply Z.div_pos; lia.
Qed.

Lemma round_pos_nonneg (n d : Z) :
  0 <= n -> 0 < d -> round_pos n d = PosInf \/ nonNegative (round_pos n d).
Proof.
  intros Hn Hd. unfold round_pos.
  set (s := Z.max 0 (Z.log2 (n / d) - 52)).
  assert (Hpow : 0 < 2 ^ s) by (apply Z.pow_pos_nonneg; lia).
  pose proof (rne_nonneg n (d * 2 ^ s) Hn ltac:(lia)).
  destruct (2 ^ 2098 <=? _); [by left |].
  right. eexists. split; [reflexivity | lia].
Qed.

Lemma of_ratio_nonneg (n d : Z) :
  0 <= n -> 0 < d -> of_ratio n d = PosInf \/ nonNegative (of_ratio n d).
Proof.
  intros Hn Hd. unfold of_ratio, round.
  assert (Hpow : 0 < 2 ^ grid) by done.
  destruct (Z.ltb_spec (n * 2 ^ grid) 0) as [Hneg | _]; [lia |].
  apply round_pos_nonneg; lia.
Qed.

Lemma of_decimal_nonneg (m e : Z) :
  0 <= m -> of_decimal m e = PosInf \/ nonNegative (of_decimal m e).
Proof.
  intros Hm. unfold of_decimal. destruct (Z.leb_spec 0 e).
  - apply of_ratio_nonneg; [| lia].
    apply Z.mul_nonneg_nonneg; [done |]. apply Z.pow_nonneg. lia.
  - apply of_ratio_nonneg; [done |]. apply Z.pow_pos_nonneg; lia.
Qed.

(** An integer below [2^53] is a number as it stands. *)
Lemma of_Z_exact (v : Z) : 0 <= v < 2 ^ 53 -> of_Z v = dyadic v 0.
Proof.
  intros [Hv Hlt]. unfold dyadic. rewrite Z.add_0_l.
  destruct (decide (v = 0)) as [-> | Hne]; [reflexivity |].
  unfold of_Z, of_ratio, round.
  assert (Hgrid : 0 < 2 ^ grid) by done.
  destruct (Z.ltb_spec (v * 2 ^ grid) 0) as [Hneg | _]; [lia |].
  unfold round_pos. rewrite Z.div_1_r, Z.mul_1_l.
  rewrite Z.log2_mul_pow2 by (done || lia).
  assert (Hlog : 0 <= Z.log2 v < 53).
  { split; [apply Z.log2_nonneg |]. apply Z.log2_lt_pow2; lia. }
  set (s := Z.max 0 (grid + Z.log2 v - 52)).
  assert (Hs : 0 <= s <= grid) by (unfold s, grid in *; lia).
  assert (Hsplit : v * 2 ^ grid = (v * 2 ^ (grid - s)) * 2 ^ s).
  { rewrite <- Z.mul_assoc, <- Z.pow_add_r by lia. do 2 f_equal. lia. }
  assert (Hpow : 0 < 2 ^ s) by (apply Z.pow_pos_nonneg; lia).
  assert (Hrne : rne (v * 2 ^ grid) (2 ^ s) = v * 2 ^ (grid - s)).
  { unfold rne. rewrite Hsplit, Z.mod_mul, Z.div_mul by lia.
    rewrite Z.mul_0_r. destruct (Z.compare_spec 0 (2 ^ s)); [lia | done | lia]. }
  rewrite Hrne, <- Hsplit.
  destruct (Z.leb_spec (2 ^ 2098) (v * 2 ^ grid)) as [Hbig | _]; [| done].
  exfalso.
  assert (v * 2 ^ grid < 2 ^ 53 * 2 ^ grid) by (apply Z.mul_lt_mono_pos_r; lia).
  assert (2 ^ 53 * 2 ^ grid < 2 ^ 2098) by done.
  lia.
Qed.

End Rounding.

Section Literals.

Lemma scanDecimal_numeric (c : ascii) (r : string) :
  numericChar c = true ->
  scanDecimal (String c r)
  = match scanUnsigned (String c r) with
    | Some (x, rest) => Some (x, rest)
    | None => None
    end.
Proof.
  destruct c as [[] [] [] [] [] [] [] []]; try discriminate; intros _; reflexivity.
Qed.

Lemma scanUnsigned_nonneg (s : string) (x : number) (rest : string) :
  scanUnsigned s = Some (x, rest) -> x = PosInf \/ nonNegative x.
Proof.
  unfold scanUnsigned.
  pose proof (span_fst_all isDigit s) as Hip.
  destruct (span isDigit s) as [ip r1]. simpl in Hip.
  pose proof (fraction_digits r1) as Hfp.
  destruct (match r1 with String "." r => span isDigit r | _ => ("", r1) end) as [fp r2].
  simpl in Hfp.
  assert (Hds : all_chars isDigit (ip +:+ fp) = true) by by rewrite all_chars_app, Hip, Hfp.
  destruct (ip +:+ fp) as [|d ds] eqn:Heq; [done |].
  destruct (scanExponent r2) as [ex rest']. intros [= <- <-].
  apply of_decimal_nonneg. by apply (digitsVal_nonneg (String d ds) 0).
Qed.

Lemma parseFloat_numeral (m : string) :
  m <> "" -> all_chars numericChar m = true ->
  parseFloat m = NaN \/ parseFloat m = PosInf \/ nonNegative (parseFloat m).
Proof.
  intros Hne Hall. destruct m as [|c m]; [done |].
  assert (Hc : numericChar c = true).
  { rewrite all_chars_cons in Hall. by apply andb_true_iff in Hall as [? _]. }
  unfold parseFloat. rewrite trimStart_keep by (simpl; by apply numericChar_not_white).
  rewrite scanDecimal_numeric by done.
  destruct (scanUnsigned _) as [[x rest]|] eqn:Hscan; [| by left].
  right. by apply scanUnsigned_nonneg in Hscan.
Qed.

Lemma leadingNumeric_Some (s m : string) :
  leadingNumeric s = Some m -> m <> "" /\ all_chars numericChar m = true.
Proof.
  unfold leadingNumeric.
  pose proof (span_fst_all numericChar s) as Hall.
  change (fun c : ascii => isDigit c || bool_decide (c = "."%char)) with numericChar.
  destruct (fst (span numericChar s)); [done |]. by intros [= <-].
Qed.

Lemma scanUnsigned_digits (ds : string) :
  digitString ds -> scanUnsigned ds = Some (of_Z (valueOf ds), "").
Proof.
  intros [Hne Hall]. unfold scanUnsigned.
  assert (Hspan : span isDigit ds = (ds, "")).
  { rewrite <- (string_app_nil_r ds) at 1. by apply span_app. }
  rewrite Hspan, string_app_nil_r. destruct ds as [|c r]; [done |].
  simpl. unfold of_decimal. simpl. by rewrite Z.mul_1_r.
Qed.

Lemma scanDecimal_digits (ds : string) :
  digitString ds -> scanDecimal ds = Some (of_Z (valueOf ds), "").
Proof.
  intros Hds. pose proof Hds as [Hne Hall]. destruct ds as [|c r]; [done |].
  rewrite scanDecimal_numeric, scanUnsigned_digits; [done | done |].
  rewrite all_chars_cons in Hall. apply andb_true_iff in Hall as [Hc _].
  by apply isDigit_numericChar.
Qed.

Lemma scanRadix_digits (ds : string) : all_chars isDigit ds = true -> scanRadix ds = None.
Proof.
  destruct ds as [|c [|c' r]]; intros Hall.
  - done.
  - by destruct c as [[] [] [] [] [] [] [] []].
  - rewrite !all_chars_cons in Hall.
    apply andb_true_iff in Hall as [_ [Hc' _]%andb_true_iff].
    destruct c as [[] [] [] [] [] [] [] []]; try reflexivity.
    destruct c' as [[] [] [] [] [] [] [] []]; try discriminate; reflexivity.
Qed.

Lemma digitString_numeral (ds : string) :
  digitString ds -> ds <> "" /\ all_chars numericChar ds = true.
Proof.
  intros [Hne Hall]. split; [done |].
  eapply all_chars_impl; [apply isDigit_numericChar | done].
Qed.

Lemma StringToNumber_digits (ds : string) :
  digitString ds -> StringToNumber ds = of_Z (valueOf ds).
Proof.
  intros Hds. pose proof (digitString_numeral ds Hds) as [Hne Hnum].
  unfold StringToNumber. rewrite trim_numeral by done.
  destruct ds as [|c r]; [done |].
  by rewrite scanRadix_digits, scanDecimal_digits by (done || apply Hds).
Qed.

Lemma parseFloat_digits (ds : string) :
  digitString ds -> parseFloat ds = of_Z (valueOf ds).
Proof.
  intros Hds. pose proof (digitString_numeral ds Hds) as [Hne Hnum].
  unfold parseFloat. rewrite trimStart_keep, scanDecimal_digits; [done | done |].
  destruct ds as [|c r]; [done |]. cbn [stops].
  rewrite all_chars_cons in Hnum. apply andb_true_iff in Hnum as [Hc _].
  by apply numericChar_not_white.
Qed.

Lemma valueOf_nonneg (ds : string) : digitString ds -> 0 <= valueOf ds.
Proof. intros [_ Hall]. by apply digitsVal_nonneg. Qed.

End Literals.

Section Parsing.

(** X. [parseCycles] reads the leading numeral and nothing else: whatever
    follows the digits and dots, a unit such as K or M included, does
    not change the result. *)
Theorem parseCycles_ignores_suffix (m : string) (c : ascii) (rest : string) :
  m <> "" -> all_chars numericChar m = true -> numericChar c = false ->
  parseCycles (VStr (m +:+ String c rest)) = parseCycles (VStr m).
Proof.
  intros Hne Hall Hc. unfold parseCycles, ToString.
  rewrite trim_app, trim_numeral by done.
  rewrite leadingNumeric_app, leadingNumeric_numeral; try done.
  by apply trimEnd_stops.
Qed.

Lemma parseCycles_ignores_suffix_witness :
  parseCycles (VStr ("12.5" +:+ String "K" " cycles")) = parseCycles (VStr "12.5").
Proof.
  apply (parseCycles_ignores_suffix "12.5" "K" " cycles"); [done | reflexivity | reflexivity].
Defined.



(** X. Whatever the field holds, [parseCycles] gives a finite number that
    is not negative: a sign is not part of the leading numeral, and NaN and
    Infinity are turned into 0. *)
Theorem parseCycles_nonneg (v : value) : nonNegative (parseCycles v).
Proof.
  assert (Hzero : nonNegative zero) by (by exists 0).
  unfold parseCycles.
  destruct v; try done;
    (destruct (leadingNumeric _) as [m|] eqn:Hm; [| done];
     apply leadingNumeric_Some in Hm as [Hne Hall];
     destruct (parseFloat_numeral m Hne Hall) as [-> | [-> | Hnn]]; try done;
     destruct Hnn as (k & -> & Hk); simpl; by exists k).
Qed.

(** X. The cycles of every row of a fetched table are a finite number that
    is not negative, whatever the answer held. *)
Theorem fetched_cycles_nonneg (resp : Response) (table : list MetricsRow) :
  fetchTable resp = inr table ->
  Forall (fun r => nonNegative (cycles_proved r)) table.
Proof.
  destruct resp as [| | |rows data]; try discriminate. simpl.
  destruct (entriesOf (dataOf rows data)) as [e|es] eqn:Hes; [discriminate |].
  intros [= <-]. unfold tableFrom. apply Forall_map, Forall_forall.
  intros p _. simpl. unfold fromEntries.
  rewrite fromEntries_acc_lookup, (entriesOf_lastFor _ _ _ Hes), lookup_empty.
  destruct (lastFor _ _) as [r|]; simpl; [apply parseCycles_nonneg | by exists 0].
Qed.

Lemma fetched_cycles_nonneg_witness :
  Forall (fun r => nonNegative (cycles_proved r)) sampleTable.
Proof. apply (fetched_cycles_nonneg sampleAnswer sampleTable). reflexivity. Defined.

(** X. A row whose two counts are numerals below [2^53] is read exactly:
    [Number(..)] and [parseCycles] both give the integer the digits
    denote. *)
Theorem counts_read_exactly (r : ApiRow) (a b : string) :
  api_orders_taken r = VStr a -> api_cycles_proved r = VStr b ->
  digitString a -> digitString b ->
  valueOf a < 2 ^ 53 -> valueOf b < 2 ^ 53 ->
  metricsOf r = {| m_orders_taken := dyadic (valueOf a) 0;
                   m_cycles_proved := dyadic (valueOf b) 0 |}.
Proof.
  intros Ha Hb Hda Hdb Hva Hvb. unfold metricsOf. rewrite Ha, Hb.
  pose proof (digitString_numeral a Hda) as [Hane Han].
  pose proof (digitString_numeral b Hdb) as [Hbne Hbn].
  pose proof (valueOf_nonneg a Hda). pose proof (valueOf_nonneg b Hdb).
  f_equal.
  - unfold or_else, truthy. rewrite bool_decide_eq_false_2 by done.
    cbn [negb ToNumber]. by rewrite StringToNumber_digits, of_Z_exact.
  - unfold parseCycles, ToString.
    rewrite trim_numeral, leadingNumeric_numeral by done.
    by rewrite parseFloat_digits, of_Z_exact.
Qed.

Lemma counts_read_exactly_witness :
  metricsOf {| api_prover_addr := VNull; api_orders_taken := VStr "42";
               api_cycles_proved := VStr "9007199254740991" |}
  = {| m_orders_taken := dyadic (valueOf "42") 0;
       m_cycles_proved := dyadic (valueOf "9007199254740991") 0 |}.
Proof.
  apply (counts_read_exactly _ "42" "9007199254740991");
    [reflexivity | reflexivity | by split | by split | reflexivity | reflexivity].
Defined.

End Parsing.
